(** * network-discovery.py: canonicalisers, parsers, vendor cache and merge

    A shallow embedding of [network-discovery.py].  Python [str] values are
    modelled by [string]; a character is a code point below 256, and the
    character predicates below are the interpreter's tables restricted to
    that range.  Integers are unbounded ([N], [Z]), as the language defines
    them.  Wall-clock time is a parameter ([now], in seconds). *)

From Stdlib Require Import String Ascii ZArith NArith List Lia Bool.
From Stdlib Require Import DecimalString DecimalN.
From Stdlib Require DecimalFacts.
From stdpp Require Import gmap strings list.

Open Scope string_scope.

(** ** Characters *)

Module Chr.

Definition code (c : ascii) : N := N_of_ascii c.

Definition between (lo hi : N) (c : ascii) : bool :=
  ((lo <=? code c) && (code c <=? hi))%N.

(** [str.isspace], also the class [\s] of [re] on [str] patterns. *)
Definition isspace (c : ascii) : bool :=
  between 9 13 c || between 28 32 c || (code c =? 133)%N || (code c =? 160)%N.

(** The white space that [int] accepts around a number: the ASCII white
    space and, above code 127, the two space characters of the range. *)
Definition isintspace (c : ascii) : bool :=
  between 9 13 c || (code c =? 32)%N || (code c =? 133)%N || (code c =? 160)%N.

(** The class [\d]. *)
Definition isdigit (c : ascii) : bool := between 48 57 c.

(** The class [[A-Za-z]]. *)
Definition isletter (c : ascii) : bool := between 65 90 c || between 97 122 c.

(** The class [[0-9a-f.]]. *)
Definition ishexdot (c : ascii) : bool :=
  between 48 57 c || between 97 102 c || (code c =? 46)%N.

(** The class [\S]. *)
Definition nonspace (c : ascii) : bool := negb (isspace c).

(** The class [.] (no DOTALL): anything but a line feed. *)
Definition anychar (c : ascii) : bool := negb (code c =? 10)%N.

(** Characters that [str.splitlines] treats as line boundaries. *)
Definition islinebreak (c : ascii) : bool :=
  between 10 13 c || between 28 30 c || (code c =? 133)%N.

Definition isupper (c : ascii) : bool :=
  between 65 90 c || (between 192 222 c && negb (code c =? 215)%N).

Definition islower_cased (c : ascii) : bool :=
  between 97 122 c || (between 224 254 c && negb (code c =? 247)%N).

(** [str.lower] on one character (in this range it maps a character to
    one character; above it, it can lengthen a text). *)
Definition lower (c : ascii) : ascii :=
  if isupper c then ascii_of_N (code c + 32) else c.

(** The upper-case variant inside the modelled range (used only to decide
    case-insensitive class membership). *)
Definition upper (c : ascii) : ascii :=
  if islower_cased c then ascii_of_N (code c - 32) else c.

End Chr.

(** ** String primitives of the interpreter *)

Module Str.

Fixpoint map (f : ascii -> ascii) (s : string) : string :=
  match s with
  | EmptyString => EmptyString
  | String c s' => String (f c) (map f s')
  end.

Fixpoint forallb (p : ascii -> bool) (s : string) : bool :=
  match s with
  | EmptyString => true
  | String c s' => p c && forallb p s'
  end.

(** [s.lower()] *)
Definition lower (s : string) : string := map Chr.lower s.

(** [s.replace(c, "")] for a one-character [c]. *)
Fixpoint remove (c : ascii) (s : string) : string :=
  match s with
  | EmptyString => EmptyString
  | String a s' => if Ascii.eqb a c then remove c s' else String a (remove c s')
  end.

(** [s.lstrip()] *)
Fixpoint lstrip (s : string) : string :=
  match s with
  | EmptyString => EmptyString
  | String c s' => if Chr.isspace c then lstrip s' else s
  end.

(** [s.rstrip()] *)
Fixpoint rstrip (s : string) : string :=
  match s with
  | EmptyString => EmptyString
  | String c s' =>
      match rstrip s' with
      | EmptyString => if Chr.isspace c then EmptyString else String c EmptyString
      | r => String c r
      end
  end.

(** [s.strip()] *)
Definition strip (s : string) : string := rstrip (lstrip s).

(** Leading and trailing characters of a class removed. *)
Fixpoint ltrim (p : ascii -> bool) (s : string) : string :=
  match s with
  | EmptyString => EmptyString
  | String c s' => if p c then ltrim p s' else s
  end.

Fixpoint rtrim (p : ascii -> bool) (s : string) : string :=
  match s with
  | EmptyString => EmptyString
  | String c s' =>
      match rtrim p s' with
      | EmptyString => if p c then EmptyString else String c EmptyString
      | r => String c r
      end
  end.

Fixpoint count (p : ascii -> bool) (s : string) : nat :=
  match s with
  | EmptyString => O
  | String c s' => if p c then S (count p s') else count p s'
  end.

(** [s.startswith(p)], returning what follows the prefix. *)
Fixpoint drop_prefix (p s : string) : option string :=
  match p with
  | EmptyString => Some s
  | String a p' =>
      match s with
      | String b s' => if Ascii.eqb a b then drop_prefix p' s' else None
      | EmptyString => None
      end
  end.

Definition startswith (p s : string) : bool :=
  match drop_prefix p s with Some _ => true | None => false end.

(** [sep.join(parts)] *)
Fixpoint join (sep : string) (parts : list string) : string :=
  match parts with
  | [] => EmptyString
  | [x] => x
  | x :: xs => x ++ sep ++ join sep xs
  end.

(** [s.split(c)] for a one-character separator: never empty. *)
Fixpoint split (c : ascii) (s : string) : list string :=
  match s with
  | EmptyString => [EmptyString]
  | String a s' =>
      if Ascii.eqb a c then EmptyString :: split c s'
      else match split c s' with
           | [] => [String a EmptyString]
           | w :: ws => String a w :: ws
           end
  end.

(** [[s[i:i+2] for i in range(0, len(s), 2)]] *)
Fixpoint chunks2 (s : string) : list string :=
  match s with
  | EmptyString => []
  | String a EmptyString => [String a EmptyString]
  | String a (String b s') => String a (String b EmptyString) :: chunks2 s'
  end.

(** [s.splitlines()]: the text cut at every line boundary, the pair
    carriage return + line feed counting as one, and no empty last line. *)
Fixpoint splitlines_aux (cur : string) (s : string) : list string :=
  match s with
  | EmptyString => match cur with EmptyString => [] | _ => [cur] end
  | String c s' =>
      if Chr.islinebreak c then
        match s' with
        | String d s'' =>
            if (Chr.code c =? 13)%N && (Chr.code d =? 10)%N
            then cur :: splitlines_aux EmptyString s''
            else cur :: splitlines_aux EmptyString s'
        | EmptyString => [cur]
        end
      else splitlines_aux (cur ++ String c EmptyString) s'
  end.

Definition splitlines (s : string) : list string := splitlines_aux EmptyString s.

(** The part of [s] consumed when [rest] is what remains of it. *)
Fixpoint take (n : nat) (s : string) : string :=
  match n, s with
  | S n', String c s' => String c (take n' s')
  | _, _ => EmptyString
  end.

Definition consumed (s rest : string) : string :=
  take (String.length s - String.length rest) s.

End Str.

(** ** The fragment of [re] the program uses

    A backtracking matcher that enumerates the ways a pattern can match at
    the current position, in the priority order of the [re] module (greedy
    repetitions longest first, lazy ones shortest first, alternatives left
    to right).  [re.match] takes the first of them.  Every repetition in the
    program's patterns is over a single character class. *)

Module Re.

Inductive regex : Type :=
| Lit (l : string)                 (* literal text *)
| Cls (p : ascii -> bool)          (* one character of a class *)
| Plus (p : ascii -> bool)         (* class+  *)
| PlusLazy (p : ascii -> bool)     (* class+? *)
| Star (p : ascii -> bool)         (* class*  *)
| Cat (r1 r2 : regex)
| Alt (r1 r2 : regex)
| Group (n : nat) (r : regex)      (* capturing group number n *)
| Bol                              (* ^ without MULTILINE *)
| Eol.                             (* $ without MULTILINE *)

Definition groups := list (nat * string).

(** One outcome of matching: what is left of the subject, and the groups. *)
Definition outcome : Type := string * groups.

(** Class membership, under [re.I] when [ic] is set. *)
Definition cls (ic : bool) (p : ascii -> bool) (c : ascii) : bool :=
  p c || (ic && (p (Chr.lower c) || p (Chr.upper c))).

Definition chr_eq (ic : bool) (a b : ascii) : bool :=
  if ic then Ascii.eqb (Chr.lower a) (Chr.lower b) else Ascii.eqb a b.

Fixpoint lit (ic : bool) (l s : string) : option string :=
  match l with
  | EmptyString => Some s
  | String a l' =>
      match s with
      | String b s' => if chr_eq ic a b then lit ic l' s' else None
      | EmptyString => None
      end
  end.

(** What remains after 1, 2, ... characters of the class, shortest first. *)
Fixpoint tails (p : ascii -> bool) (s : string) : list string :=
  match s with
  | String c s' => if p c then s' :: tails p s' else []
  | EmptyString => []
  end.

Definition at_eol (s : string) : bool :=
  match s with
  | EmptyString => true
  | String c EmptyString => (Chr.code c =? 10)%N
  | _ => false
  end.

(** [bos] tells whether the current position is the start of the subject. *)
Fixpoint run (ic : bool) (r : regex) (bos : bool) (s : string) (g : groups)
  : list outcome :=
  match r with
  | Lit l => match lit ic l s with Some s' => [(s', g)] | None => [] end
  | Cls p =>
      match s with
      | String c s' => if cls ic p c then [(s', g)] else []
      | EmptyString => []
      end
  | Plus p => List.map (fun s' => (s', g)) (rev (tails (cls ic p) s))
  | PlusLazy p => List.map (fun s' => (s', g)) (tails (cls ic p) s)
  | Star p => List.map (fun s' => (s', g)) (rev (s :: tails (cls ic p) s))
  | Cat r1 r2 =>
      flat_map
        (fun o : outcome =>
           run ic r2 (bos && (String.length (fst o) =? String.length s)%nat)
               (fst o) (snd o))
        (run ic r1 bos s g)
  | Alt r1 r2 => run ic r1 bos s g ++ run ic r2 bos s g
  | Group n r1 =>
      List.map (fun o : outcome => (fst o, (n, Str.consumed s (fst o)) :: snd o))
               (run ic r1 bos s g)
  | Bol => if bos then [(s, g)] else []
  | Eol => if at_eol s then [(s, g)] else []
  end.

(** A match object: the groups and the unconsumed rest of the subject. *)
Definition match_at (ic : bool) (r : regex) (bos : bool) (s : string)
  : option outcome :=
  head (run ic r bos s []).

(** [pattern.match(s)] *)
Definition rmatch (ic : bool) (r : regex) (s : string) : option groups :=
  snd <$> match_at ic r true s.

(** [m.group(n)] (every group read by the program takes part in the match). *)
Fixpoint group (n : nat) (g : groups) : string :=
  match g with
  | [] => EmptyString
  | (k, v) :: g' => if (k =? n)%nat then v else group n g'
  end.

(** [pattern.search(s)]: the first offset at which the pattern matches. *)
Fixpoint search_from (ic : bool) (r : regex) (bos : bool) (s : string)
  : option outcome :=
  match match_at ic r bos s with
  | Some o => Some o
  | None =>
      match s with
      | EmptyString => None
      | String _ s' => search_from ic r false s'
      end
  end.

Definition search (ic : bool) (r : regex) (s : string) : option groups :=
  snd <$> search_from ic r true s.

(** [pattern.finditer(s)] / [re.findall]: successive non-overlapping
    matches, leftmost first.  [skip] counts the characters of the last match
    still to be stepped over; after an empty match the scan moves on by one
    character. *)
Fixpoint finditer_from (ic : bool) (r : regex) (bos : bool) (skip : nat)
    (s : string) : list groups :=
  match skip with
  | S k =>
      match s with
      | EmptyString => []
      | String _ s' => finditer_from ic r false k s'
      end
  | O =>
      match match_at ic r bos s with
      | Some (rest, g) =>
          g :: match s with
               | EmptyString => []
               | String _ s' =>
                   finditer_from ic r false
                     (Nat.pred (String.length s - String.length rest)) s'
               end
      | None =>
          match s with
          | EmptyString => []
          | String _ s' => finditer_from ic r false O s'
          end
      end
  end.

Definition finditer (ic : bool) (r : regex) (s : string) : list groups :=
  finditer_from ic r true O s.

End Re.

Declare Scope re_scope.
Delimit Scope re_scope with re.
Infix "+>" := Re.Cat (at level 60, right associativity) : re_scope.
Infix "<|>" := Re.Alt (at level 60, right associativity) : re_scope.

(** ** Normalisers *)

(** [int(text)] on a capture of [\d+], and an integer formatted by an
    f-string: the standard decimal notation.  [int_of_digits] is the value
    of the conversion; the interpreter refuses a text of more than
    [int_max_str_digits] digits with [ValueError] (the default of
    [sys.set_int_max_str_digits]), which [int_refuses] tells. *)
Definition int_of_digits (s : string) : N :=
  match NilZero.uint_of_string s with
  | Some d => N.of_uint d
  | None => 0%N
  end.

Definition int_max_str_digits : nat := 4300.

Definition over_limit (digits : nat) : bool := (int_max_str_digits <? digits)%nat.

Definition int_refuses (capture : string) : bool := over_limit (String.length capture).

Definition str_of_int (n : N) : string := NilZero.string_of_uint (N.to_uint n).

Definition PREFIX_MAP : list (string * string) :=
  [ ("GigabitEthernet", "Gi");
    ("FastEthernet", "Fa");
    ("TenGigabitEthernet", "Te");
    ("TwentyFiveGigE", "Tf");
    ("FortyGigabitEthernet", "Fo");
    ("HundredGigE", "Hu");
    ("Ethernet", "Et");
    ("Port-channel", "Po") ].

Definition normalize_mac (raw : string) : string :=
  let mac := Str.lower (Str.remove "."%char raw) in
  Str.join ":" (Str.chunks2 mac).

(** The loop over [PREFIX_MAP.items()]: the first entry whose long name
    starts [port] is substituted, and the loop stops. *)
Fixpoint replace_prefix (table : list (string * string)) (port : string) : string :=
  match table with
  | [] => port
  | (long, short) :: table' =>
      match Str.drop_prefix long port with
      | Some rest => short ++ rest
      | None => replace_prefix table' port
      end
  end.

Module PortRe.
Import Re.
Open Scope re_scope.

(** [([A-Za-z]+)(\d+)/(\d+)/(\d+)] *)
Definition three : regex :=
  Group 1 (Plus Chr.isletter) +> Group 2 (Plus Chr.isdigit) +> Lit "/" +>
  Group 3 (Plus Chr.isdigit) +> Lit "/" +> Group 4 (Plus Chr.isdigit).

(** [([A-Za-z]+)(\d+)/(\d+)] *)
Definition two : regex :=
  Group 1 (Plus Chr.isletter) +> Group 2 (Plus Chr.isdigit) +> Lit "/" +>
  Group 3 (Plus Chr.isdigit).

(** [([A-Za-z]+)(\d+)] *)
Definition one : regex :=
  Group 1 (Plus Chr.isletter) +> Group 2 (Plus Chr.isdigit).

End PortRe.

Definition fmt_int (g : Re.groups) (n : nat) : string :=
  str_of_int (int_of_digits (Re.group n g)).

(** [normalize_port] is given by two functions: [normalize_port], the
    value the call returns, and [normalize_port_raises], which tells
    whether it raises instead ([ValueError], when [int] refuses one of the
    numeric components of the pattern that matched). *)
Definition normalize_port (port : string) : string :=
  let port := Str.strip port in
  let port := replace_prefix PREFIX_MAP port in
  match Re.rmatch false PortRe.three port with
  | Some m => Re.group 1 m ++ fmt_int m 2 ++ "/" ++ fmt_int m 3 ++ "/" ++ fmt_int m 4
  | None =>
      match Re.rmatch false PortRe.two port with
      | Some m2 => Re.group 1 m2 ++ fmt_int m2 2 ++ "/" ++ fmt_int m2 3
      | None =>
          match Re.rmatch false PortRe.one port with
          | Some m3 => Re.group 1 m3 ++ fmt_int m3 2
          | None => port
          end
      end
  end.

Definition normalize_port_raises (port : string) : bool :=
  let port := Str.strip port in
  let port := replace_prefix PREFIX_MAP port in
  match Re.rmatch false PortRe.three port with
  | Some m =>
      int_refuses (Re.group 2 m) || int_refuses (Re.group 3 m) || int_refuses (Re.group 4 m)
  | None =>
      match Re.rmatch false PortRe.two port with
      | Some m2 => int_refuses (Re.group 2 m2) || int_refuses (Re.group 3 m2)
      | None =>
          match Re.rmatch false PortRe.one port with
          | Some m3 => int_refuses (Re.group 2 m3)
          | None => false
          end
      end
  end.

(** ** OUI cache and vendor resolver

    The world the resolver acts on: the in-memory dictionary [oui_dict]
    (shared by reference between all calls of a run), the rows of
    [oui_cache.csv] below its header, each field as the text written (no
    rows when the file does not exist), and the requests sent to the
    lookup service so far (latest first). *)

Inductive response : Type :=
| Ok (text : string)      (* a response with [r.ok] *)
| NotOk                   (* a response without [r.ok] *)
| Raised.                 (* [requests.get] raised: timeout, connection error, ... *)

Record world : Type := World {
  oui_dict : gmap string string;
  oui_file : list (string * string);
  requests : list string
}.

(** The lookup service: its answer may depend on the earlier requests. *)
Definition service : Type := list string -> string -> response.

(** [pd.read_csv] does not hand the fields back as written: it infers a
    type for each column.  A blank field is a missing value (NaN) in any
    column.  When every field of a column is blank or a whole number in
    decimal digits, the column holds numbers: integers, or fractions as
    soon as one field is blank.  Otherwise the column holds the texts
    written.  (Signs, decimal points, exponents, the words for booleans and
    for missing values, and numbers of more than fifteen digits are not
    modelled; the fields this program writes as OUI are made of hexadecimal
    digits and colons, at most two characters when there is no colon.) *)
Inductive scalar : Type :=
| AsText (s : string)                 (* a [str] *)
| AsNumber (n : N) (fraction : bool)  (* an [int], or the [float] of that value *)
| AsMissing.                          (* NaN *)

Definition blank (field : string) : bool :=
  match field with
  | EmptyString => true
  | _ => false
  end.

Definition numeral (field : string) : bool :=
  negb (blank field) && Str.forallb Chr.isdigit field &&
  (String.length field <=? 15)%nat.

Definition numeric (column : list string) : bool :=
  forallb (fun field => blank field || numeral field) column.

Definition read_field (column : list string) (field : string) : scalar :=
  if blank field then AsMissing
  else if numeric column then AsNumber (int_of_digits field) (existsb blank column)
  else AsText field.

(** [pd.read_csv(LOCAL_OUI_CACHE_FILE)]: the rows of the frame. *)
Definition read_csv (file : list (string * string)) : list (scalar * scalar) :=
  let ouis := List.map fst file in
  let vendors := List.map snd file in
  List.map (fun row => (read_field ouis (fst row), read_field vendors (snd row))) file.

(** The text [to_csv] writes for a value; also how a vendor that is not a
    text is represented where the model needs a [string]. *)
Definition shown (v : scalar) : string :=
  match v with
  | AsText s => s
  | AsNumber n false => str_of_int n
  | AsNumber n true => str_of_int n ++ ".0"
  | AsMissing => ""
  end.

(** [dict(zip(df.oui, df.vendor))], restricted to the keys that are texts:
    [get_vendor] looks up texts only, which no other key equals. *)
Definition load_oui_cache (file : list (string * string)) : gmap string string :=
  fold_left (fun d row => match fst row with
                          | AsText oui => <[oui := shown (snd row)]> d
                          | _ => d
                          end) (read_csv file) ∅.

(** [oui in df.oui.values] for the frame read from the file: a text equals
    no number and no missing value. *)
Definition in_column (oui : string) (file : list (string * string)) : bool :=
  existsb (fun row => match fst row with
                      | AsText s => String.eqb oui s
                      | _ => false
                      end) (read_csv file).

(** The frame read, with one more row, written back; nothing is written
    when the OUI is found. *)
Definition update_oui_cache (oui vendor : string) (file : list (string * string))
  : list (string * string) :=
  if in_column oui file then file
  else (List.map (fun row => (shown (fst row), shown (snd row))) (read_csv file)
          ++ [(oui, vendor)])%list.

(** [":".join(mac.split(":")[:3])] *)
Definition oui_of (mac : string) : string :=
  Str.join ":" (firstn 3 (Str.split ":"%char mac)).

Definition get_vendor (api : service) (mac : string) (w : world) : string * world :=
  let oui := oui_of mac in
  match oui_dict w !! oui with
  | Some vendor => (vendor, w)
  | None =>
      let sent := mac :: requests w in
      match api (requests w) mac with
      | Ok text =>
          (text, World (<[oui := text]> (oui_dict w))
                       (update_oui_cache oui text (oui_file w)) sent)
      | NotOk | Raised =>
          ("Unknown", World (<[oui := "Unknown"]> (oui_dict w))
                            (update_oui_cache oui "Unknown" (oui_file w)) sent)
      end
  end.

(** ** MAC table *)

Record MacRow : Type := MkMacRow {
  mac_port : string;
  mac_address : string;
  vendor : string
}.

Module MacRe.
Import Re.
Open Scope re_scope.

(** [(?P<vlan>\d+)\s+(?P<mac>[0-9a-f.]+)\s+(?:DYNAMIC|STATIC|SECURE)\s+(?P<port>\S+)]
    compiled with [re.I]; groups: 1 vlan, 2 mac, 3 port. *)
Definition patt : regex :=
  Group 1 (Plus Chr.isdigit) +> Plus Chr.isspace +>
  Group 2 (Plus Chr.ishexdot) +> Plus Chr.isspace +>
  (Lit "DYNAMIC" <|> Lit "STATIC" <|> Lit "SECURE") +> Plus Chr.isspace +>
  Group 3 (Plus Chr.nonspace).

End MacRe.

(** [DataFrame.drop_duplicates("port")]: the first row of each port stays. *)
Fixpoint drop_duplicates {A : Type} (key : A -> string) (seen : list string)
    (rows : list A) : list A :=
  match rows with
  | [] => []
  | r :: rows' =>
      if existsb (String.eqb (key r)) seen
      then drop_duplicates key seen rows'
      else r :: drop_duplicates key (key r :: seen) rows'
  end.

(** The loop of [parse_mac_table] over the matches, threading the world
    through the calls of [get_vendor]. *)
Fixpoint mac_rows (api : service) (ms : list Re.groups) (w : world)
  : list MacRow * world :=
  match ms with
  | [] => ([], w)
  | m :: ms' =>
      let port := normalize_port (Re.group 3 m) in
      let mac := normalize_mac (Re.group 2 m) in
      let (v, w1) := get_vendor api mac w in
      let (rows, w2) := mac_rows api ms' w1 in
      (MkMacRow port mac v :: rows, w2)
  end.

Definition parse_mac_table (api : service) (output : string) (w : world)
  : list MacRow * world :=
  let (rows, w') := mac_rows api (Re.finditer true MacRe.patt output) w in
  (drop_duplicates mac_port [] rows, w').

(** ** Interface status *)

Record StatusRow : Type := MkStatusRow {
  st_port : string;
  status : string;
  vlan : string;
  description : string;
  duplex : string;
  speed : string;
  type_ : string
}.

Module StatusRe.
Import Re.
Open Scope re_scope.

(** [(connected|notconnect|disabled|err-disabled|inactive|monitoring|secure-shutdown|sfpAbsent)] *)
Definition status_re : regex :=
  Group 4 (Lit "connected" <|> Lit "notconnect" <|> Lit "disabled" <|>
           Lit "err-disabled" <|> Lit "inactive" <|> Lit "monitoring" <|>
           Lit "secure-shutdown" <|> Lit "sfpAbsent").

(** [^(?P<port>\S+)\s+(?P<name>.+?)\s+(?P<status>...)\s+(?P<vlan>\S+)\s+
     (?P<duplex>\S+)\s+(?P<speed>\S+)\s+(?P<type>.+)$] compiled with [re.I];
    groups: 1 port, 2 name, 3 status, 5 vlan, 6 duplex, 7 speed, 8 type. *)
Definition patt : regex :=
  Bol +> Group 1 (Plus Chr.nonspace) +> Plus Chr.isspace +>
  Group 2 (PlusLazy Chr.anychar) +> Plus Chr.isspace +>
  Group 3 status_re +> Plus Chr.isspace +>
  Group 5 (Plus Chr.nonspace) +> Plus Chr.isspace +>
  Group 6 (Plus Chr.nonspace) +> Plus Chr.isspace +>
  Group 7 (Plus Chr.nonspace) +> Plus Chr.isspace +>
  Group 8 (Plus Chr.anychar) +> Eol.

End StatusRe.

(** Records handed to [logging]. *)
Inductive level : Type := DEBUG | INFO | ERROR.
Definition log : Type := list (level * string).

(** [not line.strip() or line.startswith(("Port", "---"))] *)
Definition status_skipped (line : string) : bool :=
  match Str.strip line with
  | EmptyString => true
  | _ => Str.startswith "Port" line || Str.startswith "---" line
  end.

Definition status_row (m : Re.groups) : StatusRow :=
  MkStatusRow (normalize_port (Re.group 1 m))
              (Re.group 3 m)
              (Re.group 5 m)
              (Str.strip (Re.group 2 m))
              (Re.group 6 m)
              (Re.group 7 m)
              (Str.strip (Re.group 8 m)).

(** The loop of [parse_if_status] over the lines: the rows, and the
    records logged, both in order. *)
Fixpoint status_lines (lines : list string) : list StatusRow * log :=
  match lines with
  | [] => ([], [])
  | line :: lines' =>
      let (rows, lg) := status_lines lines' in
      if status_skipped line then (rows, lg)
      else
        match Re.rmatch true StatusRe.patt (Str.rstrip line) with
        | None => (rows, (DEBUG, "Unparsed status line: " ++ line) :: lg)
        | Some m => (status_row m :: rows, lg)
        end
  end.

Definition parse_if_status (output : string) : list StatusRow * log :=
  status_lines (Str.splitlines output).

(** [parse_if_status] raises instead ([ValueError]) when [normalize_port]
    does on the port of a line that the pattern matched. *)
Definition status_raises (lines : list string) : bool :=
  existsb (fun line =>
             negb (status_skipped line) &&
             match Re.rmatch true StatusRe.patt (Str.rstrip line) with
             | Some m => normalize_port_raises (Re.group 1 m)
             | None => false
             end) lines.

Definition parse_if_status_raises (output : string) : bool :=
  status_raises (Str.splitlines output).

(** ** Ages and last traffic *)

(** What a call either returns or raises. *)
Inductive exn : Type := ValueError | OverflowError | KeyError.

Inductive result (A : Type) : Type :=
| Return (a : A)
| Raise (e : exn).
Arguments Return {A} a.
Arguments Raise {A} e.

Definition bind {A B : Type} (r : result A) (f : A -> result B) : result B :=
  match r with
  | Return a => f a
  | Raise e => Raise e
  end.

Notation "x <- r ;; k" := (bind r (fun x => k))
  (at level 100, r at next level, right associativity).

(** The digits of an [int] literal given as text: decimal digits, single
    underscores allowed between two digits. [prev] tells whether the
    previous character was a digit. *)
Fixpoint int_body (prev : bool) (acc : Z) (s : string) : option Z :=
  match s with
  | EmptyString => if prev then Some acc else None
  | String c s' =>
      if Chr.isdigit c then
        int_body true (10 * acc + (Z.of_N (Chr.code c) - 48)) s'
      else if Ascii.eqb c "_" && prev then
        match s' with
        | String d _ => if Chr.isdigit d then int_body false acc s' else None
        | EmptyString => None
        end
      else None
  end.

(** [int(text)] for an arbitrary [str]: surrounding white space and a sign
    are accepted; anything else raises [ValueError], and so do more digits
    than [int_max_str_digits]. *)
Definition py_int (text : string) : result Z :=
  let body (sgn : Z) (s : string) :=
    match int_body false 0 s with
    | Some n =>
        if over_limit (Str.count Chr.isdigit s) then Raise ValueError
        else Return (sgn * n)%Z
    | None => Raise ValueError
    end in
  match Str.rtrim Chr.isintspace (Str.ltrim Chr.isintspace text) with
  | String "+" s => body 1%Z s
  | String "-" s => body (-1)%Z s
  | s => body 1%Z s
  end.

(** [int(text)] on a capture of [\d+], where it can raise. *)
Definition int_of_capture (capture : string) : result N :=
  if int_refuses capture then Raise ValueError else Return (int_of_digits capture).

(** A [datetime.timedelta] of whole seconds: at most 999999999 days in
    either direction, else [OverflowError]. *)
Definition timedelta (seconds : Z) : result Z :=
  if ((-86399999913600 <=? seconds) && (seconds <=? 86399999999999))%Z
  then Return seconds else Raise OverflowError.

Module AgeRe.
Import Re.
Open Scope re_scope.

(** [(\d+)([wdhms])] *)
Definition unit_cls (c : ascii) : bool :=
  existsb (Ascii.eqb c) ["w"; "d"; "h"; "m"; "s"]%char.

Definition token : regex :=
  Group 1 (Plus Chr.isdigit) +> Group 2 (Cls unit_cls).

End AgeRe.

Definition unit_seconds (u : string) : Z :=
  match u with
  | "w" => 604800
  | "d" => 86400
  | "h" => 3600
  | "m" => 60
  | _ => 1
  end%Z.

Fixpoint contains (c : ascii) (s : string) : bool :=
  match s with
  | EmptyString => false
  | String a s' => Ascii.eqb a c || contains c s'
  end.

(** [h, m, s = map(int, text.split(":"))] *)
Definition unpack_hms (parts : list string) : result (Z * Z * Z) :=
  match parts with
  | [a; b; c] =>
      h <- py_int a ;; m <- py_int b ;; s <- py_int c ;; Return (h, m, s)
  | _ => Raise ValueError
  end.

(** [_age_to_timedelta]: [None] is the absence of a duration, a duration
    is a number of seconds. *)
Definition _age_to_timedelta (text : string) : result (option Z) :=
  if String.eqb (Str.lower text) "never" then Return None
  else if contains ":" text then
    hms <- unpack_hms (Str.split ":"%char text) ;;
    let '(h, m, s) := hms in
    d <- timedelta (3600 * h + 60 * m + s) ;;
    Return (Some d)
  else
    total <- fold_left
               (fun acc m =>
                  total <- acc ;;
                  num <- int_of_capture (Re.group 1 m) ;;
                  Return (total + Z.of_N num * unit_seconds (Re.group 2 m))%Z)
               (Re.finditer false AgeRe.token text) (Return 0%Z) ;;
    if (total =? 0)%Z then Return None
    else d <- timedelta total ;; Return (Some d).

(** [last_traffic_seen]: an instant (seconds on the clock of [now]) or the
    text ["Never"]. *)
Inductive stamp : Type :=
| At (t : Z)
| Never.

Record TrafficRow : Type := MkTrafficRow {
  tr_port : string;
  last_traffic_seen : stamp
}.

Module TrafficRe.
Import Re.
Open Scope re_scope.

(** [^(\S+) is .*, line protocol is] *)
Definition hdr : regex :=
  Bol +> Group 1 (Plus Chr.nonspace) +> Lit " is " +> Star Chr.anychar +>
  Lit ", line protocol is".

(** [Last input (\S+), output (\S+),] *)
Definition last : regex :=
  Lit "Last input " +> Group 1 (Plus Chr.nonspace) +> Lit ", output " +>
  Group 2 (Plus Chr.nonspace) +> Lit ",".

End TrafficRe.

(** [[d for d in (in_d, out_d) if d]]: a [timedelta] of zero is falsy. *)
Definition truthy_deltas (ds : list (option Z)) : list Z :=
  omap (fun d => match d with
                 | Some z => if (z =? 0)%Z then None else Some z
                 | None => None
                 end) ds.

Definition min_delta (d : Z) (ds : list Z) : Z := fold_left Z.min ds d.

(** [datetime.datetime.now() - delta]: an instant within years 1..9999,
    counted in seconds from the start of year 1. *)
Definition datetime_sub (now delta : Z) : result Z :=
  let t := (now - delta)%Z in
  if ((0 <=? t) && (t <? 315537897600))%Z then Return t else Raise OverflowError.

Definition traffic_stamp (now : Z) (in_d out_d : option Z) : result stamp :=
  match truthy_deltas [in_d; out_d] with
  | [] => Return Never
  | d :: ds => t <- datetime_sub now (min_delta d ds) ;; Return (At t)
  end.

(** [if cur_port:] *)
Definition port_set (cur_port : option string) : option string :=
  match cur_port with
  | Some EmptyString => None
  | other => other
  end.

(** The loop of [parse_last_traffic], with [cur_port] as loop state. *)
Fixpoint traffic_lines (now : Z) (cur_port : option string) (lines : list string)
  : result (list TrafficRow) :=
  match lines with
  | [] => Return []
  | line :: lines' =>
      match Re.rmatch false TrafficRe.hdr line with
      | Some m_hdr =>
          if normalize_port_raises (Re.group 1 m_hdr) then Raise ValueError
          else traffic_lines now (Some (normalize_port (Re.group 1 m_hdr))) lines'
      | None =>
          match port_set cur_port with
          | None => traffic_lines now cur_port lines'
          | Some port =>
              match Re.search false TrafficRe.last line with
              | None => traffic_lines now cur_port lines'
              | Some m_last =>
                  in_d <- _age_to_timedelta (Re.group 1 m_last) ;;
                  out_d <- _age_to_timedelta (Re.group 2 m_last) ;;
                  st <- traffic_stamp now in_d out_d ;;
                  rows <- traffic_lines now None lines' ;;
                  Return (MkTrafficRow port st :: rows)
              end
          end
      end
  end.

(** [parse_last_traffic] returns the rows or raises; it hands nothing to
    [logging] on any path. *)
Definition parse_last_traffic (now : Z) (output : string)
  : result (list TrafficRow) * log :=
  (traffic_lines now None (Str.splitlines output), []).

(** ** LLDP neighbours

    [get_lldp_neighbors] opens its own session; its frame always carries
    the six columns, also when the collection failed and it has no row. *)

Record LldpRow : Type := MkLldpRow {
  ll_port : string;
  neighbor_name : string;
  neighbor_port : string;
  neighbor_platform : string;
  neighbor_capability : string;
  neighbor_device_id : string
}.

(** ** Data frames and the merge *)

Inductive cell : Type :=
| Text (s : string)
| Instant (t : Z)
| NaN.

(** A row, as the dictionary it was built from: column name, value. *)
Definition record : Type := list (string * cell).

Record DataFrame : Type := MkFrame {
  columns : list string;
  records : list record
}.

(** [pd.DataFrame(rows)] for a list of dictionaries with the same keys:
    without rows the frame has no column either. *)
Definition frame_of (rows : list record) : DataFrame :=
  MkFrame (match rows with [] => [] | r :: _ => List.map fst r end) rows.

(** [pd.DataFrame(rows, columns=cols)] *)
Definition frame_with (cols : list string) (rows : list record) : DataFrame :=
  MkFrame cols rows.

(** [df.empty] *)
Definition frame_empty (f : DataFrame) : bool :=
  match columns f, records f with
  | [], _ | _, [] => true
  | _, _ => false
  end.

Fixpoint get (col : string) (r : record) : cell :=
  match r with
  | [] => NaN
  | (k, v) :: r' => if String.eqb k col then v else get col r'
  end.

Fixpoint set (col : string) (v : cell) (r : record) : record :=
  match r with
  | [] => [(col, v)]
  | (k, x) :: r' => if String.eqb k col then (k, v) :: r' else (k, x) :: set col v r'
  end.

Definition has_column (col : string) (f : DataFrame) : bool :=
  existsb (String.eqb col) (columns f).

Definition cell_eqb (a b : cell) : bool :=
  match a, b with
  | Text x, Text y => String.eqb x y
  | Instant x, Instant y => (x =? y)%Z
  | _, _ => false
  end.

Definition without (col : string) (r : record) : record :=
  List.filter (fun kv => negb (String.eqb (fst kv) col)) r.

(** [left.merge(right, on=key, how="left")] for frames that share no other
    column: every left row, in order, once per right row with the same key,
    or once with the right columns missing when there is none. *)
Definition merge_left (key : string) (left right : DataFrame) : result DataFrame :=
  if has_column key left && has_column key right then
    let others := List.filter (fun c => negb (String.eqb c key)) (columns right) in
    let join (l : record) : list record :=
      match List.filter (fun r => cell_eqb (get key l) (get key r)) (records right) with
      | [] => [(l ++ List.map (fun c => (c, NaN)) others)%list]
      | matches => List.map (fun r => (l ++ without key r)%list) matches
      end in
    Return (MkFrame (columns left ++ others)%list (flat_map join (records left)))
  else Raise KeyError.

(** [f["port"] = f["port"].apply(normalize_port)], guarded by [not f.empty]. *)
Definition renormalize (f : DataFrame) : DataFrame :=
  if frame_empty f then f
  else
    MkFrame (columns f)
      (List.map (fun r => match get "port" r with
                          | Text p => set "port" (Text (normalize_port p)) r
                          | _ => r
                          end) (records f)).

Definition status_dict (r : StatusRow) : record :=
  [ ("port", Text (st_port r)); ("status", Text (status r)); ("vlan", Text (vlan r));
    ("description", Text (description r)); ("duplex", Text (duplex r));
    ("speed", Text (speed r)); ("type", Text (type_ r)) ].

Definition mac_dict (r : MacRow) : record :=
  [ ("port", Text (mac_port r)); ("mac_address", Text (mac_address r));
    ("vendor", Text (vendor r)) ].

Definition lldp_cols : list string :=
  [ "port"; "neighbor_name"; "neighbor_port"; "neighbor_platform";
    "neighbor_capability"; "neighbor_device_id" ].

Definition lldp_dict (r : LldpRow) : record :=
  [ ("port", Text (ll_port r)); ("neighbor_name", Text (neighbor_name r));
    ("neighbor_port", Text (neighbor_port r));
    ("neighbor_platform", Text (neighbor_platform r));
    ("neighbor_capability", Text (neighbor_capability r));
    ("neighbor_device_id", Text (neighbor_device_id r)) ].

Definition traffic_dict (r : TrafficRow) : record :=
  [ ("port", Text (tr_port r));
    ("last_traffic_seen",
     match last_traffic_seen r with At t => Instant t | Never => Text "Never" end) ].

Definition text_cols : list string :=
  [ "mac_address"; "vendor"; "neighbor_name"; "neighbor_port";
    "neighbor_platform"; "neighbor_capability"; "neighbor_device_id" ].

(** [df[text_cols] = df[text_cols].fillna("")] on one row. *)
Definition fill_blanks (r : record) : record :=
  List.map (fun kv =>
              match snd kv with
              | NaN => if existsb (String.eqb (fst kv)) text_cols
                       then (fst kv, Text "") else kv
              | _ => kv
              end) r.

(** [df["vendor"] = df["vendor"].replace("", "Unknown")] on one row. *)
Definition default_vendor (r : record) : record :=
  match get "vendor" r with
  | Text "" => set "vendor" (Text "Unknown") r
  | _ => r
  end.

(** [df["ip_address"] = df["mac_address"].map(arp_map).fillna("Unknown")]
    on one row. *)
Definition resolve_ip (arp_map : gmap string string) (r : record) : record :=
  let ip := match get "mac_address" r with
            | Text m => default "Unknown" (arp_map !! m)
            | _ => "Unknown"
            end in
  (r ++ [("ip_address", Text ip)])%list.

(** The part of [collect_switch_data] after the session is closed. *)
Definition merge_snapshot (hostname ip today : string) (arp_map : gmap string string)
    (df_if df_mac df_lldp df_last : DataFrame) : result DataFrame :=
  let df_if := renormalize df_if in
  let df_mac := renormalize df_mac in
  let df_lldp := renormalize df_lldp in
  let df_last := renormalize df_last in
  df1 <- merge_left "port" df_if df_mac ;;
  df2 <- merge_left "port" df1 df_lldp ;;
  df <- merge_left "port" df2 df_last ;;
  if forallb (fun c => has_column c df) text_cols then
    let finish (r : record) : record :=
      ([("switch_name", Text hostname); ("switch_ip", Text ip)] ++
       resolve_ip arp_map (default_vendor (fill_blanks r)) ++
       [("snapshot_date", Text today)])%list in
    Return (MkFrame (["switch_name"; "switch_ip"] ++ columns df ++
                     ["ip_address"; "snapshot_date"])%list
                    (List.map finish (records df)))
  else Raise KeyError.

(** [collect_switch_data], given what the device answered to each command
    and the rows [get_lldp_neighbors] extracted. *)
Definition collect_switch_data (api : service) (now : Z) (hostname ip today : string)
    (arp_map : gmap string string) (out_if out_mac : string) (lldp : list LldpRow)
    (out_last : string) (w : world) : result DataFrame * world :=
  let df_if := frame_of (List.map status_dict (fst (parse_if_status out_if))) in
  let (macs, w') := parse_mac_table api out_mac w in
  let df_mac := frame_of (List.map mac_dict macs) in
  let df_lldp := frame_with lldp_cols (List.map lldp_dict lldp) in
  (last <- fst (parse_last_traffic now out_last) ;;
   merge_snapshot hostname ip today arp_map df_if df_mac df_lldp
                  (frame_of (List.map traffic_dict last)),
   w').

(** ** Notions used to state the properties *)

(** The longest prefix of [s] inside a class, and what follows it. *)
Fixpoint span (p : ascii -> bool) (s : string) : string * string :=
  match s with
  | String c s' =>
      if p c then let (u, v) := span p s' in (String c u, v) else (EmptyString, s)
  | EmptyString => (EmptyString, EmptyString)
  end.

(** A non-empty run of a class at the head of [s]. *)
Definition take_run (p : ascii -> bool) (s : string) : option (string * string) :=
  match span p s with
  | (EmptyString, _) => None
  | (u, v) => Some (u, v)
  end.

Definition take_slash (s : string) : option string :=
  match s with
  | String "/" s' => Some s'
  | _ => None
  end.

(** [s] starts with a character of the class. *)
Definition starts_in (p : ascii -> bool) (s : string) : bool :=
  match s with
  | String c _ => p c
  | EmptyString => false
  end.

(** The deterministic reading of the three port patterns: name, numeric
    components, and the text left over. *)
Definition scan_one (s : string) : option (string * list string * string) :=
  '(name, s1) ← take_run Chr.isletter s;
  '(d1, s2) ← take_run Chr.isdigit s1;
  Some (name, [d1], s2).

Definition scan_two (s : string) : option (string * list string * string) :=
  '(name, ds, s2) ← scan_one s;
  s3 ← take_slash s2;
  '(d2, s4) ← take_run Chr.isdigit s3;
  Some (name, (ds ++ [d2])%list, s4).

Definition scan_three (s : string) : option (string * list string * string) :=
  '(name, ds, s4) ← scan_two s;
  s5 ← take_slash s4;
  '(d3, s6) ← take_run Chr.isdigit s5;
  Some (name, (ds ++ [d3])%list, s6).

(** A port name as spelled, and as rendered by [normalize_port]. *)
Definition spell (name : string) (ds : list string) : string :=
  name ++ Str.join "/" ds.

Definition render (name : string) (ds : list string) : string :=
  name ++ Str.join "/" (List.map (fun d => str_of_int (int_of_digits d)) ds).

(** [port] starts with one of the verbose names of [PREFIX_MAP]. *)
Definition has_long_prefix (port : string) : bool :=
  existsb (fun e : string * string => Str.startswith (fst e) port) PREFIX_MAP.

(** A non-empty word over a class. *)
Definition word (p : ascii -> bool) (s : string) : bool :=
  starts_in p s && Str.forallb p s.

(** Text after [n] numeric components that a longer pattern could use:
    a further digit, or a slash and a digit while [n] is below three. *)
Definition extends (n : nat) (rest : string) : bool :=
  starts_in Chr.isdigit rest ||
  ((n <? 3)%nat &&
   match rest with
   | String "/" r => starts_in Chr.isdigit r
   | _ => false
   end).

(** ** Further notions used to state the properties *)

(** A continuation that cannot start on a character of class [q]. *)
Definition rejects (ic : bool) (r : Re.regex) (q : ascii -> bool) : Prop :=
  forall bos c s g, q c = true -> Re.run ic r bos (String c s) g = [].

(** The groups of a match of a port pattern, latest first. *)
Definition port_groups (name : string) (ds : list string) : Re.groups :=
  match ds with
  | [d1] => [(2, d1); (1, name)]
  | [d1; d2] => [(3, d2); (2, d1); (1, name)]
  | [d1; d2; d3] => [(4, d3); (3, d2); (2, d1); (1, name)]
  | _ => []
  end.

(** [normalize_port] after the prefix substitution, by the deterministic
    reading of the patterns. *)
Definition canonical (p : string) : string :=
  match scan_three p with
  | Some (name, ds, _) => render name ds
  | None =>
      match scan_two p with
      | Some (name, ds, _) => render name ds
      | None =>
          match scan_one p with
          | Some (name, ds, _) => render name ds
          | None => p
          end
      end
  end.

(** [normalize_port_raises] after the prefix substitution, by the
    deterministic reading of the patterns. *)
Definition refused (p : string) : bool :=
  match scan_three p with
  | Some (_, ds, _) => existsb int_refuses ds
  | None =>
      match scan_two p with
      | Some (_, ds, _) => existsb int_refuses ds
      | None =>
          match scan_one p with
          | Some (_, ds, _) => existsb int_refuses ds
          | None => false
          end
      end
  end.

(** The numeric components as [normalize_port] writes them. *)
Definition rendered (ds : list string) : list string :=
  List.map (fun d => str_of_int (int_of_digits d)) ds.

(** [normalize_mac] after the dots are removed and the case lowered. *)
Definition rejoin (s : string) : string := Str.join ":" (Str.chunks2 s).

(** Text without dots and already in lower case. *)
Definition plain (s : string) : Prop :=
  Str.remove "." s = s /\ Str.lower s = s.

(** A hardware address as its octets, two hexadecimal digits each. *)
Definition octet : Type := ascii * ascii.

Definition ishex (c : ascii) : bool :=
  Chr.between 48 57 c || Chr.between 65 70 c || Chr.between 97 102 c.

Definition hex_octet (o : octet) : bool := ishex (fst o) && ishex (snd o).

Definition octet_str (o : octet) : string := String (fst o) (String (snd o) "").

Definition lower_octet (o : octet) : octet := (Chr.lower (fst o), Chr.lower (snd o)).

(** The octets written one after the other with [sep] between them. *)
Definition spelled (sep : string) (octs : list octet) : string :=
  Str.join sep (List.map octet_str octs).

(** A line feed, and a text given by its lines. *)
Definition nl : string := String "010" "".

Definition text_of (lines : list string) : string := Str.join nl lines.

(** [show interfaces] where the port last received a packet zero seconds
    ago and last sent one five and a half minutes ago. *)
Definition traffic_just_received : string :=
  text_of [ "GigabitEthernet1/0/1 is up, line protocol is up (connected)";
            "  Hardware is Gigabit Ethernet, address is aabb.ccdd.eeff";
            "  Last input 00:00:00, output 00:05:30, output hang never" ].

(** The same, for a port that has never sent anything. *)
Definition traffic_received_only : string :=
  text_of [ "GigabitEthernet1/0/2 is up, line protocol is up (connected)";
            "  Last input 00:00:00, output never, output hang never" ].

(** Some instant: seconds elapsed since the start of year 1. *)
Definition some_now : Z := 63900000000.

(** Number of persisted rows written for an OUI. *)
Definition rows_for (oui : string) (file : list (string * string)) : nat :=
  length (List.filter (fun row : string * string => String.eqb (fst row) oui) file).

(** The world at the start of a run. *)
Definition start_of_run (file : list (string * string)) : world :=
  World (load_oui_cache file) file [].

(** Successive resolutions, each against the service as it then answers. *)
Fixpoint resolve_all (steps : list (service * string)) (w : world) : world :=
  match steps with
  | [] => w
  | (api, mac) :: steps' => resolve_all steps' (snd (get_vendor api mac w))
  end.

(** A service that never answers, and one that knows a vendor. *)
Definition no_service : service := fun _ _ => Raised.



(** A MAC-table line with an address of one octet, and one with a full
    address. *)
Definition mac_one_octet : string :=
  text_of [ "   1    12    DYNAMIC     Gi1/0/1" ].

Definition mac_full_address : string :=
  text_of [ "   1    aabb.ccdd.eeff    DYNAMIC     Gi1/0/1" ].

(** A line of [show interfaces status] that yields a row, and one that is
    neither skipped nor matched. *)
Definition status_matches (line : string) : bool :=
  match Re.rmatch true StatusRe.patt (Str.rstrip line) with
  | Some _ => true
  | None => false
  end.

Definition well_formed (line : string) : bool :=
  negb (status_skipped line) && status_matches line.

Definition malformed (line : string) : bool :=
  negb (status_skipped line) && negb (status_matches line).

(** A line of [show interfaces] that is neither a port header nor a
    [Last input] line. *)
Definition traffic_ignored (line : string) : bool :=
  match Re.rmatch false TrafficRe.hdr line, Re.search false TrafficRe.last line with
  | None, None => true
  | _, _ => false
  end.

(** Ten lines of [show interfaces status], the sixth one damaged. *)
Definition status_first_five : list string :=
  [ "Gi1/0/1   Uplink to core     connected    trunk      a-full a-1000 10/100/1000BaseTX";
    "Gi1/0/2   Printer 2nd floor  connected    10         a-full  a-100 10/100/1000BaseTX";
    "Gi1/0/3   spare              notconnect   1            auto   auto 10/100/1000BaseTX";
    "Gi1/0/4   lab                disabled     20           auto   auto 10/100/1000BaseTX";
    "Gi1/0/5   camera             err-disabled 30           auto   auto 10/100/1000BaseTX" ].

Definition status_damaged : string := "Gi1/0/6   % output truncated".

Definition status_last_four : list string :=
  [ "Gi1/0/7   phone              connected    40         a-full  a-100 10/100/1000BaseTX";
    "Gi1/0/8   AP east            connected    50         a-full a-1000 10/100/1000BaseTX";
    "Te1/1/1   core 1             connected    trunk        full    10G SFP-10GBase-SR";
    "Te1/1/2   core 2             sfpAbsent    1            full    10G unknown" ].

Definition status_ten_lines : string :=
  text_of (status_first_five ++ status_damaged :: status_last_four).

(** [show interfaces] with an age that is not of the form [hh:mm:ss]. *)
Definition traffic_bad_age : string :=
  text_of [ "GigabitEthernet1/0/1 is up, line protocol is up (connected)";
            "  Last input 1:02, output never, output hang never" ].

(** One port in the status table, one MAC behind it, and two LLDP
    neighbours on it (a phone and the workstation plugged into it). *)
Definition status_one_port : string :=
  text_of [ "Port      Name               Status       Vlan       Duplex  Speed Type";
            "Gi1/0/1   Uplink to core     connected    1          a-full a-1000 10/100/1000BaseTX" ].

Definition mac_one_entry : string :=
  text_of [ "   1    aabb.ccdd.eeff    DYNAMIC     Gi1/0/1" ].

Definition lldp_two_neighbours : list LldpRow :=
  [ MkLldpRow "Gi1/0/1" "phone-17" "Port 1" "IP Phone" "B,T" "0011.2233.4455";
    MkLldpRow "Gi1/0/1" "ws-204" "eth0" "Linux" "S" "0011.2233.6677" ].

(** [show interfaces] listing a port and a sub-interface of it. *)
Definition traffic_subinterface : string :=
  text_of [ "GigabitEthernet1/0/1 is up, line protocol is up (connected)";
            "  Last input never, output 00:00:01, output hang never";
            "GigabitEthernet1/0/1.100 is up, line protocol is up (connected)";
            "  Last input never, output 00:00:02, output hang never" ].

Definition rows_of (r : result DataFrame) : option nat :=
  match r with
  | Return df => Some (length (records df))
  | Raise _ => None
  end.

(** Two MAC-table lines on the same port. *)
Definition mac_two_on_port : string :=
  text_of [ "   1    aabb.ccdd.eeff    DYNAMIC     Gi1/0/1";
            "  10    0011.2233.4455    STATIC      GigabitEthernet1/0/1";
            "  10    0011.2233.4466    dynamic     Gi1/0/2" ].
(** Every request so far was for a different OUI, and each of them is in
    the dictionary since. *)
Definition asked_once (w : world) : Prop :=
  NoDup (List.map oui_of (requests w)) /\
  forall m, In m (requests w) -> is_Some (oui_dict w !! oui_of m).

(** A port header of [show interfaces]. *)
Definition is_header (line : string) : bool :=
  match Re.rmatch false TrafficRe.hdr line with
  | Some _ => true
  | None => false
  end.

(** The value of a field of decimal digits. *)
Definition field (d : string) : Z := Z.of_N (int_of_digits d).

(** ** ARP table and the run over all devices *)

Module ArpRe.
Import Re.
Open Scope re_scope.

(** [(\d+\.\d+\.\d+\.\d+)\s+\S+\s+([0-9a-f.]+)], without flags; groups:
    1 address, 2 hardware address. *)
Definition patt : regex :=
  Group 1 (Plus Chr.isdigit +> Lit "." +> Plus Chr.isdigit +> Lit "." +>
           Plus Chr.isdigit +> Lit "." +> Plus Chr.isdigit) +>
  Plus Chr.isspace +> Plus Chr.nonspace +> Plus Chr.isspace +>
  Group 2 (Plus Chr.ishexdot).

End ArpRe.

(** [get_arp_table], given what the layer-3 switch answered to
    [show ip arp], or nothing when the session failed: the dictionary
    comprehension keeps the last address seen for a hardware address. *)
Definition get_arp_table (out : option string) : gmap string string :=
  match out with
  | None => ∅
  | Some text =>
      fold_left (fun d m => <[normalize_mac (Re.group 2 m) := Re.group 1 m]> d)
                (Re.finditer false ArpRe.patt text) ∅
  end.

(** What an access switch answers during [collect_switch_data]. *)
Record answers : Type := MkAnswers {
  a_hostname : string;       (* show run | inc ^hostname *)
  a_status : string;         (* show interfaces status *)
  a_mac : string;            (* show mac address-table *)
  a_lldp : list LldpRow;     (* rows of get_lldp_neighbors *)
  a_traffic : string         (* show interfaces *)
}.

(** [text.split()]: the words between runs of white space. *)
Fixpoint words_from (cur : string) (s : string) : list string :=
  match s with
  | EmptyString => match cur with EmptyString => [] | _ => [cur] end
  | String c s' =>
      if Chr.isspace c then
        match cur with
        | EmptyString => words_from EmptyString s'
        | _ => cur :: words_from EmptyString s'
        end
      else words_from (cur ++ String c EmptyString) s'
  end.

(** [text.split()[-1]]; [None] is the [IndexError] on a text without
    words. *)
Definition last_word (s : string) : option string := last (words_from EmptyString s).

(** One turn of the loop of [main]: the frame of the device, or nothing
    when the session could not be opened or [collect_switch_data] raised
    (the exception is logged and the loop goes on). *)
Definition collect_device (api : service) (now : Z) (today : string)
    (arp_map : gmap string string) (ip : string) (session : option answers) (w : world)
  : option DataFrame * world :=
  match session with
  | None => (None, w)
  | Some a =>
      match last_word (a_hostname a) with
      | None => (None, w)
      | Some hostname =>
          let (r, w') :=
            collect_switch_data api now hostname ip today arp_map
              (a_status a) (a_mac a) (a_lldp a) (a_traffic a) w in
          (match r with Return df => Some df | Raise _ => None end, w')
      end
  end.

Fixpoint collect_all (api : service) (now : Z) (today : string)
    (arp_map : gmap string string) (devices : list (string * option answers))
    (w : world) : list DataFrame * world :=
  match devices with
  | [] => ([], w)
  | (ip, session) :: devices' =>
      let (frame, w1) := collect_device api now today arp_map ip session w in
      let (frames, w2) := collect_all api now today arp_map devices' w1 in
      (match frame with Some df => df :: frames | None => frames end, w2)
  end.

(** Equality of cells as [drop_duplicates] sees it: missing values are
    alike. *)
Definition cell_same (a b : cell) : bool :=
  match a, b with
  | Text x, Text y => String.eqb x y
  | Instant x, Instant y => (x =? y)%Z
  | NaN, NaN => true
  | _, _ => false
  end.

Definition row_key (r : record) : cell * cell * cell :=
  (get "switch_name" r, get "port" r, get "snapshot_date" r).

Definition key_same (a b : cell * cell * cell) : bool :=
  cell_same (fst (fst a)) (fst (fst b)) && cell_same (snd (fst a)) (snd (fst b))
  && cell_same (snd a) (snd b).

(** [df.drop_duplicates(subset=["switch_name","port","snapshot_date"])] *)
Fixpoint drop_duplicate_rows (seen : list (cell * cell * cell)) (rows : list record)
  : list record :=
  match rows with
  | [] => []
  | r :: rows' =>
      if existsb (key_same (row_key r)) seen
      then drop_duplicate_rows seen rows'
      else r :: drop_duplicate_rows (row_key r :: seen) rows'
  end.

(** The end of [main]: exit when no device gave a frame ([None]), else the
    frames one after the other without duplicates. *)
Definition aggregate (frames : list DataFrame) : option (list record) :=
  match frames with
  | [] => None
  | _ => Some (drop_duplicate_rows [] (concat (List.map records frames)))
  end.

(** The frame a call returned, empty when it raised. *)
Definition returned (r : result DataFrame) : DataFrame :=
  match r with
  | Return df => df
  | Raise _ => MkFrame [] []
  end.

(** [show ip arp] with two entries for one hardware address. *)
Definition arp_moved_host : string :=
  text_of [ "Protocol  Address          Age (min)  Hardware Addr   Type   Interface";
            "Internet  10.0.0.5               12   aabb.ccdd.eeff  ARPA   Vlan10";
            "Internet  10.0.0.9                0   aabb.ccdd.eeff  ARPA   Vlan20" ].

(** The frames of the device with one status port, and its LLDP frame
    with two neighbours or with one. *)
Definition rows_status_one : list StatusRow := fst (parse_if_status status_one_port).

Definition df_mac_one : DataFrame :=
  frame_of (List.map mac_dict (fst (parse_mac_table no_service mac_one_entry (start_of_run [])))).

Definition df_lldp_two : DataFrame :=
  frame_with lldp_cols (List.map lldp_dict lldp_two_neighbours).

Definition df_lldp_one : DataFrame :=
  frame_with lldp_cols (List.map lldp_dict (firstn 1 lldp_two_neighbours)).

Definition df_last_one : DataFrame :=
  frame_of (List.map traffic_dict [MkTrafficRow "Gi1/0/1" (At (some_now - 330))]).

Definition snapshot_with (df_lldp : DataFrame) : result DataFrame :=
  merge_snapshot "sw1" "10.0.0.2" "2026-11-03" ∅
    (frame_of (List.map status_dict rows_status_one)) df_mac_one df_lldp df_last_one.

(** A cell of a text column once the blanks are filled. *)
Definition filled (v : cell) : cell :=
  match v with
  | NaN => Text ""
  | _ => v
  end.

#[local] Arguments String.append !_ _ / : simpl nomatch.

(** Splitting conjunctions only. *)
Ltac split_all := repeat match goal with |- _ /\ _ => split end.

(** ** Facts about strings *)

Lemma strlen_app (a b : string) :
  String.length (a ++ b) = (String.length a + String.length b)%nat.
Proof. induction a as [|c a IH]; simpl; [reflexivity | now rewrite IH]. Qed.

Lemma strapp_empty_r (a : string) : a ++ "" = a.
Proof. induction a as [|c a IH]; simpl; [reflexivity | now rewrite IH]. Qed.

Lemma strapp_assoc (a b c : string) : (a ++ b) ++ c = a ++ b ++ c.
Proof. induction a as [|x a IH]; simpl; [reflexivity | now rewrite IH]. Qed.

Lemma take_app (u v : string) : Str.take (String.length u) (u ++ v) = u.
Proof. induction u as [|c u IH]; simpl; [now destruct v | now rewrite IH]. Qed.

Lemma consumed_app (u v : string) : Str.consumed (u ++ v) v = u.
Proof.
  unfold Str.consumed. rewrite strlen_app.
  replace (String.length u + String.length v - String.length v)%nat
    with (String.length u) by lia.
  apply take_app.
Qed.

Lemma span_app (p : ascii -> bool) (s : string) : fst (span p s) ++ snd (span p s) = s.
Proof.
  induction s as [|c s IH]; simpl; [reflexivity|].
  destruct (p c); [|reflexivity].
  destruct (span p s) as [u v]; simpl in *. now rewrite IH.
Qed.

Lemma span_forallb (p : ascii -> bool) (s : string) : Str.forallb p (fst (span p s)) = true.
Proof.
  induction s as [|c s IH]; simpl; [reflexivity|].
  destruct (p c) eqn:Hc; [|reflexivity].
  destruct (span p s) as [u v]; simpl in *. now rewrite Hc.
Qed.

Lemma span_rest (p : ascii -> bool) (s : string) : starts_in p (snd (span p s)) = false.
Proof.
  induction s as [|c s IH]; simpl; [reflexivity|].
  destruct (p c) eqn:Hc; [|simpl; exact Hc].
  destruct (span p s) as [u v]; simpl in *. exact IH.
Qed.

Lemma span_ext (p q : ascii -> bool) (s : string) :
  (forall c, p c = q c) -> span p s = span q s.
Proof.
  intros H. induction s as [|c s IH]; simpl; [reflexivity|].
  rewrite <- H, IH. reflexivity.
Qed.

(** A run followed by text that does not continue it is the span. *)
Lemma span_word (p : ascii -> bool) (u v : string) :
  Str.forallb p u = true -> starts_in p v = false -> span p (u ++ v) = (u, v).
Proof.
  intros Hu Hv. induction u as [|c u IH]; simpl in *.
  - destruct v as [|d v]; simpl in *; [reflexivity | now rewrite Hv].
  - apply andb_prop in Hu as [Hc Hu]. rewrite Hc, (IH Hu). reflexivity.
Qed.

Lemma take_run_word (p : ascii -> bool) (u v : string) :
  word p u = true -> starts_in p v = false -> take_run p (u ++ v) = Some (u, v).
Proof.
  unfold word, take_run. intros Hu Hv. apply andb_prop in Hu as [Hne Hu].
  rewrite (span_word p u v Hu Hv). destruct u; [discriminate | reflexivity].
Qed.

Lemma take_run_Some (p : ascii -> bool) (s u v : string) :
  take_run p s = Some (u, v) ->
  s = u ++ v /\ word p u = true /\ starts_in p v = false.
Proof.
  unfold take_run, word. intros H.
  pose proof (span_app p s) as Ha. pose proof (span_forallb p s) as Hf.
  pose proof (span_rest p s) as Hr.
  destruct (span p s) as [u' v']; simpl in *.
  destruct u' as [|c u']; [discriminate|]. injection H as <- <-.
  repeat split; auto. simpl in *. apply andb_prop in Hf as [Hc Hf].
  now rewrite Hc, Hf.
Qed.

Lemma take_run_None (p : ascii -> bool) (s : string) :
  take_run p s = None <-> starts_in p s = false.
Proof.
  unfold take_run. destruct s as [|c s]; simpl; [tauto|].
  destruct (p c); [|tauto]. destruct (span p s). split; discriminate.
Qed.
(** ** Facts about characters *)

Ltac all_chars c :=
  destruct c as [[] [] [] [] [] [] [] []]; vm_compute; intuition congruence.

Lemma letter_not_digit (c : ascii) : Chr.isletter c = true -> Chr.isdigit c = false.
Proof. all_chars c. Qed.

Lemma digit_not_slash (c : ascii) : Chr.isdigit c = true -> Ascii.eqb "/" c = false.
Proof. all_chars c. Qed.

Lemma digit_not_letter (c : ascii) : Chr.isdigit c = true -> Chr.isletter c = false.
Proof. all_chars c. Qed.

Lemma digit_nonspace (c : ascii) : Chr.isdigit c = true -> Chr.isspace c = false.
Proof. all_chars c. Qed.

Lemma letter_nonspace (c : ascii) : Chr.isletter c = true -> Chr.isspace c = false.
Proof. all_chars c. Qed.

Lemma cls_false (p : ascii -> bool) (c : ascii) : Re.cls false p c = p c.
Proof. unfold Re.cls. simpl. apply orb_false_r. Qed.

(** ** Facts about the matcher *)

Lemma flat_map_map {A B C : Type} (f : B -> list C) (h : A -> B) (l : list A) :
  flat_map f (List.map h l) = flat_map (fun x => f (h x)) l.
Proof. induction l as [|x l IH]; simpl; [reflexivity | now rewrite IH]. Qed.

Lemma tails_nil (p : ascii -> bool) (s : string) :
  starts_in p s = false -> Re.tails p s = [].
Proof. destruct s as [|c s]; simpl; [reflexivity|]. now intros ->. Qed.

(** Greedy repetition before a continuation that cannot start inside the
    class: only the longest run is ever continued. *)
Lemma flat_map_rev_tails {B : Type} (f : string -> list B) (p : ascii -> bool) (s : string) :
  (forall c s', p c = true -> f (String c s') = []) ->
  flat_map f (rev (Re.tails p s)) =
  match take_run p s with Some (_, v) => f v | None => [] end.
Proof.
  intros Hf. unfold take_run. induction s as [|c s IH]; simpl; [reflexivity|].
  destruct (p c) eqn:Hc; [|reflexivity].
  simpl. rewrite flat_map_app, IH. simpl. rewrite app_nil_r.
  destruct s as [|d s]; simpl; [reflexivity|].
  destruct (p d) eqn:Hd; [|reflexivity].
  rewrite (Hf d s Hd), app_nil_r.
  destruct (span p s) as [u v]. reflexivity.
Qed.

Lemma head_rev_tails (p : ascii -> bool) (s : string) :
  head (rev (Re.tails p s)) = snd <$> take_run p s.
Proof.
  unfold take_run. induction s as [|c s IH]; simpl; [reflexivity|].
  destruct (p c) eqn:Hc; [|reflexivity]. simpl.
  destruct s as [|d s]; simpl in *; [reflexivity|].
  destruct (p d) eqn:Hd; simpl in *; [|reflexivity].
  destruct (rev (Re.tails p s)) as [|x l] eqn:Hr; simpl in *.
  - destruct (span p s) as [u v]. simpl in *. destruct u; simpl in *; congruence.
  - destruct (span p s) as [u v]. simpl in *. destruct u; simpl in *; congruence.
Qed.

Lemma run_group_plus (ic : bool) (n : nat) (p : ascii -> bool) (r : Re.regex)
    (bos : bool) (s : string) (g : Re.groups) :
  rejects ic r (Re.cls ic p) ->
  Re.run ic (Re.Cat (Re.Group n (Re.Plus p)) r) bos s g =
  match take_run (Re.cls ic p) s with
  | Some (u, v) => Re.run ic r false v ((n, u) :: g)
  | None => []
  end.
Proof.
  intros Hr. simpl. rewrite !flat_map_map. simpl.
  rewrite flat_map_rev_tails by (intros; apply Hr; assumption).
  destruct (take_run (Re.cls ic p) s) as [[u v]|] eqn:Ht; [|reflexivity].
  apply take_run_Some in Ht as (-> & Hu & _).
  rewrite consumed_app, strlen_app.
  destruct u as [|c u]; [discriminate|]. simpl.
  replace (String.length v =? S (String.length u + String.length v))%nat with false
    by (symmetry; apply Nat.eqb_neq; lia).
  now rewrite andb_false_r.
Qed.

Lemma run_group_plus_nil (ic : bool) (n : nat) (p : ascii -> bool) (r : Re.regex)
    (bos : bool) (s : string) (g : Re.groups) :
  starts_in (Re.cls ic p) s = false ->
  Re.run ic (Re.Cat (Re.Group n (Re.Plus p)) r) bos s g = [].
Proof. intros H. simpl. now rewrite (tails_nil _ _ H). Qed.

Lemma run_lit (ic : bool) (l : string) (r : Re.regex) (bos : bool) (s : string)
    (g : Re.groups) :
  Re.run ic (Re.Cat (Re.Lit l) r) bos s g =
  match Re.lit ic l s with
  | Some s' => Re.run ic r (bos && (String.length s' =? String.length s)%nat) s' g
  | None => []
  end.
Proof. simpl. destruct (Re.lit ic l s); simpl; [apply app_nil_r | reflexivity]. Qed.

Lemma head_group_plus (ic : bool) (n : nat) (p : ascii -> bool) (bos : bool)
    (s : string) (g : Re.groups) :
  head (Re.run ic (Re.Group n (Re.Plus p)) bos s g) =
  match take_run (Re.cls ic p) s with
  | Some (u, v) => Some (v, (n, u) :: g)
  | None => None
  end.
Proof.
  simpl. rewrite List.map_map. simpl.
  destruct (rev (Re.tails (Re.cls ic p) s)) as [|x l] eqn:Hr.
  - pose proof (head_rev_tails (Re.cls ic p) s) as H. rewrite Hr in H. simpl in H.
    destruct (take_run (Re.cls ic p) s) as [[u v]|]; [discriminate | reflexivity].
  - pose proof (head_rev_tails (Re.cls ic p) s) as H. rewrite Hr in H. simpl in H.
    destruct (take_run (Re.cls ic p) s) as [[u v]|] eqn:Ht; [|discriminate].
    simpl in H. injection H as ->. simpl.
    apply take_run_Some in Ht as (-> & _ & _). now rewrite consumed_app.
Qed.

Lemma run_group_plus_end_nil (ic : bool) (n : nat) (p : ascii -> bool)
    (bos : bool) (s : string) (g : Re.groups) :
  starts_in (Re.cls ic p) s = false ->
  Re.run ic (Re.Group n (Re.Plus p)) bos s g = [].
Proof. intros H. simpl. now rewrite (tails_nil _ _ H). Qed.

#[local] Arguments Re.run : simpl never.
(** ** The port patterns read deterministically *)

Lemma take_run_cls_false (p : ascii -> bool) (s : string) :
  take_run (Re.cls false p) s = take_run p s.
Proof. unfold take_run. now rewrite (span_ext _ p s (cls_false p)). Qed.

Lemma lit_slash (s : string) : Re.lit false "/" s = take_slash s.
Proof.
  destruct s as [|c s]; simpl; [reflexivity|].
  destruct c as [[] [] [] [] [] [] [] []]; reflexivity.
Qed.

Lemma rejects_digits_after_letters (n : nat) (r : Re.regex) :
  rejects false (Re.Cat (Re.Group n (Re.Plus Chr.isdigit)) r) (Re.cls false Chr.isletter).
Proof.
  intros bos c s g Hc. apply run_group_plus_nil. simpl.
  rewrite cls_false in *. now apply letter_not_digit.
Qed.

Lemma rejects_last_digits_after_letters (n : nat) :
  rejects false (Re.Group n (Re.Plus Chr.isdigit)) (Re.cls false Chr.isletter).
Proof.
  intros bos c s g Hc. apply run_group_plus_end_nil. simpl.
  rewrite cls_false in *. now apply letter_not_digit.
Qed.

Lemma rejects_slash_after_digits (r : Re.regex) :
  rejects false (Re.Cat (Re.Lit "/") r) (Re.cls false Chr.isdigit).
Proof.
  intros bos c s g Hc. rewrite run_lit. rewrite cls_false in Hc.
  cbn [Re.lit]. unfold Re.chr_eq. now rewrite (digit_not_slash c Hc).
Qed.

Lemma rmatch_one (s : string) :
  Re.rmatch false PortRe.one s =
  '(name, ds, _) ← scan_one s; Some (port_groups name ds).
Proof.
  unfold Re.rmatch, Re.match_at, PortRe.one, scan_one.
  rewrite run_group_plus by apply rejects_last_digits_after_letters.
  rewrite take_run_cls_false.
  destruct (take_run Chr.isletter s) as [[name s1]|]; simpl; [|reflexivity].
  rewrite head_group_plus, take_run_cls_false.
  destruct (take_run Chr.isdigit s1) as [[d1 s2]|]; reflexivity.
Qed.

Lemma rmatch_two (s : string) :
  Re.rmatch false PortRe.two s =
  '(name, ds, _) ← scan_two s; Some (port_groups name ds).
Proof.
  unfold Re.rmatch, Re.match_at, PortRe.two, scan_two, scan_one.
  rewrite run_group_plus by apply rejects_digits_after_letters.
  rewrite take_run_cls_false.
  destruct (take_run Chr.isletter s) as [[name s1]|]; simpl; [|reflexivity].
  rewrite run_group_plus by apply rejects_slash_after_digits.
  rewrite take_run_cls_false.
  destruct (take_run Chr.isdigit s1) as [[d1 s2]|]; simpl; [|reflexivity].
  rewrite run_lit, lit_slash.
  destruct (take_slash s2) as [s3|]; simpl; [|reflexivity].
  rewrite head_group_plus, take_run_cls_false.
  destruct (take_run Chr.isdigit s3) as [[d2 s4]|]; reflexivity.
Qed.

Lemma rmatch_three (s : string) :
  Re.rmatch false PortRe.three s =
  '(name, ds, _) ← scan_three s; Some (port_groups name ds).
Proof.
  unfold Re.rmatch, Re.match_at, PortRe.three, scan_three, scan_two, scan_one.
  rewrite run_group_plus by apply rejects_digits_after_letters.
  rewrite take_run_cls_false.
  destruct (take_run Chr.isletter s) as [[name s1]|]; simpl; [|reflexivity].
  rewrite run_group_plus by apply rejects_slash_after_digits.
  rewrite take_run_cls_false.
  destruct (take_run Chr.isdigit s1) as [[d1 s2]|]; simpl; [|reflexivity].
  rewrite run_lit, lit_slash.
  destruct (take_slash s2) as [s3|]; simpl; [|reflexivity].
  rewrite run_group_plus by apply rejects_slash_after_digits.
  rewrite take_run_cls_false.
  destruct (take_run Chr.isdigit s3) as [[d2 s4]|]; simpl; [|reflexivity].
  rewrite run_lit, lit_slash.
  destruct (take_slash s4) as [s5|]; simpl; [|reflexivity].
  rewrite head_group_plus, take_run_cls_false.
  destruct (take_run Chr.isdigit s5) as [[d3 s6]|]; reflexivity.
Qed.

Lemma normalize_port_canonical (port : string) :
  normalize_port port = canonical (replace_prefix PREFIX_MAP (Str.strip port)).
Proof.
  unfold normalize_port, canonical.
  set (p := replace_prefix PREFIX_MAP (Str.strip port)).
  rewrite rmatch_three, rmatch_two, rmatch_one.
  unfold scan_three, scan_two, scan_one.
  destruct (take_run Chr.isletter p) as [[name s1]|]; simpl; [|reflexivity].
  destruct (take_run Chr.isdigit s1) as [[d1 s2]|]; simpl; [|reflexivity].
  destruct (take_slash s2) as [s3|]; simpl; [|reflexivity].
  destruct (take_run Chr.isdigit s3) as [[d2 s4]|]; simpl; [|reflexivity].
  destruct (take_slash s4) as [s5|]; simpl; [|reflexivity].
  destruct (take_run Chr.isdigit s5) as [[d3 s6]|]; simpl; reflexivity.
Qed.
(** ** Spelled port names *)

Lemma starts_in_app (p q : ascii -> bool) (u v : string) :
  starts_in p u = true -> starts_in q (u ++ v) = starts_in q u.
Proof. destruct u; simpl; [discriminate | reflexivity]. Qed.

Lemma word_digit_not_letter (d v : string) :
  word Chr.isdigit d = true -> starts_in Chr.isletter (d ++ v) = false.
Proof.
  unfold word. intros H. apply andb_prop in H as [H _].
  destruct d as [|c d]; simpl in *; [discriminate|]. now apply digit_not_letter.
Qed.

Lemma scan_one_spelled (name d1 r : string) :
  word Chr.isletter name = true -> word Chr.isdigit d1 = true ->
  starts_in Chr.isdigit r = false ->
  scan_one (name ++ d1 ++ r) = Some (name, [d1], r).
Proof.
  intros Hn Hd Hr. unfold scan_one.
  rewrite (take_run_word _ name (d1 ++ r) Hn (word_digit_not_letter d1 r Hd)). simpl.
  now rewrite (take_run_word _ d1 r Hd Hr).
Qed.

Lemma scan_two_spelled (name d1 d2 r : string) :
  word Chr.isletter name = true -> word Chr.isdigit d1 = true ->
  word Chr.isdigit d2 = true -> starts_in Chr.isdigit r = false ->
  scan_two (name ++ d1 ++ "/" ++ d2 ++ r) = Some (name, [d1; d2], r).
Proof.
  intros Hn H1 H2 Hr. unfold scan_two.
  rewrite (scan_one_spelled name d1 ("/" ++ d2 ++ r) Hn H1 eq_refl). simpl.
  now rewrite (take_run_word _ d2 r H2 Hr).
Qed.

Lemma scan_three_spelled (name d1 d2 d3 r : string) :
  word Chr.isletter name = true -> word Chr.isdigit d1 = true ->
  word Chr.isdigit d2 = true -> word Chr.isdigit d3 = true ->
  starts_in Chr.isdigit r = false ->
  scan_three (name ++ d1 ++ "/" ++ d2 ++ "/" ++ d3 ++ r) = Some (name, [d1; d2; d3], r).
Proof.
  intros Hn H1 H2 H3 Hr. unfold scan_three.
  rewrite (scan_two_spelled name d1 d2 ("/" ++ d3 ++ r) Hn H1 H2 eq_refl). simpl.
  now rewrite (take_run_word _ d3 r H3 Hr).
Qed.

(** A slash that no digit follows ends the decomposition. *)
Lemma no_further_component (r : string) :
  match r with String "/" r' => starts_in Chr.isdigit r' | _ => false end = false ->
  (s ← take_slash r; take_run Chr.isdigit s) = None.
Proof.
  intros H. destruct (take_slash r) as [s|] eqn:Hs; simpl; [|reflexivity].
  apply take_run_None. unfold take_slash in Hs.
  destruct r as [|c r]; [discriminate|].
  destruct (Ascii.eqb c "/") eqn:Hc.
  - apply Ascii.eqb_eq in Hc as ->. injection Hs as ->. exact H.
  - exfalso. destruct c as [[] [] [] [] [] [] [] []]; try discriminate Hs. discriminate Hc.
Qed.

Lemma spell_one (name d1 rest : string) :
  spell name [d1] ++ rest = name ++ d1 ++ rest.
Proof. unfold spell. cbn [Str.join]. now rewrite !strapp_assoc. Qed.

Lemma spell_two (name d1 d2 rest : string) :
  spell name [d1; d2] ++ rest = name ++ d1 ++ "/" ++ d2 ++ rest.
Proof. unfold spell. cbn [Str.join]. now rewrite !strapp_assoc. Qed.

Lemma spell_three (name d1 d2 d3 rest : string) :
  spell name [d1; d2; d3] ++ rest = name ++ d1 ++ "/" ++ d2 ++ "/" ++ d3 ++ rest.
Proof. unfold spell. cbn [Str.join]. now rewrite !strapp_assoc. Qed.

Lemma canonical_spelled (name rest : string) (ds : list string) :
  word Chr.isletter name = true ->
  (1 <= length ds <= 3)%nat ->
  Forall (fun d => word Chr.isdigit d = true) ds ->
  extends (length ds) rest = false ->
  canonical (spell name ds ++ rest) = render name ds.
Proof.
  intros Hn Hlen Hds Hext. unfold extends in Hext.
  apply orb_false_elim in Hext as [Hr Hext].
  destruct ds as [|d1 [|d2 [|d3 [|d4 ds]]]]; simpl in Hlen; try lia.
  - inversion Hds as [|? ? H1 _]; subst. simpl in Hext.
    rewrite spell_one. unfold canonical, scan_three, scan_two. rewrite (scan_one_spelled name d1 rest Hn H1 Hr).
    simpl. pose proof (no_further_component rest Hext) as Hno.
    destruct (take_slash rest) as [s|]; simpl in *; [|reflexivity].
    rewrite Hno. reflexivity.
  - inversion Hds as [|? ? H1 Hds']; subst. inversion Hds' as [|? ? H2 _]; subst.
    simpl in Hext. rewrite spell_two. unfold canonical, scan_three.
    rewrite (scan_two_spelled name d1 d2 rest Hn H1 H2 Hr).
    simpl. pose proof (no_further_component rest Hext) as Hno.
    destruct (take_slash rest) as [s|]; simpl in *; [|reflexivity].
    rewrite Hno. reflexivity.
  - inversion Hds as [|? ? H1 Hds']; subst. inversion Hds' as [|? ? H2 Hds'']; subst.
    inversion Hds'' as [|? ? H3 _]; subst.
    rewrite spell_three. unfold canonical.
    now rewrite (scan_three_spelled name d1 d2 d3 rest Hn H1 H2 H3 Hr).
Qed.

(** C10. The numeric patterns match a prefix of the name: when the name,
    once trimmed and with its verbose prefix substituted, starts with a
    short code and one to three numeric components, whatever follows them
    (such as the sub-interface suffix of [Gi1/0/1.100]) is discarded. *)
Theorem normalize_port_truncates (port name rest : string) (ds : list string) :
  replace_prefix PREFIX_MAP (Str.strip port) = spell name ds ++ rest ->
  word Chr.isletter name = true ->
  (1 <= length ds <= 3)%nat ->
  Forall (fun d => word Chr.isdigit d = true) ds ->
  extends (length ds) rest = false ->
  normalize_port port = render name ds.
Proof.
  intros Hp Hn Hlen Hds Hext.
  rewrite normalize_port_canonical, Hp. now apply canonical_spelled.
Qed.

Lemma normalize_port_truncates_witness :
  normalize_port "Gi1/0/1.100" = "Gi1/0/1".
Proof.
  apply (normalize_port_truncates "Gi1/0/1.100" "Gi" ".100" ["1"; "0"; "1"]).
  - reflexivity.
  - reflexivity.
  - simpl; lia.
  - repeat constructor.
  - reflexivity.
Defined.
(** ** Trimming *)

Lemma lstrip_fixed (s : string) : starts_in Chr.isspace s = false -> Str.lstrip s = s.
Proof. destruct s as [|c s]; simpl; [reflexivity|]. now intros ->. Qed.

Lemma lstrip_starts (s : string) : starts_in Chr.isspace (Str.lstrip s) = false.
Proof.
  induction s as [|c s IH]; simpl; [reflexivity|].
  destruct (Chr.isspace c) eqn:Hc; [exact IH | simpl; exact Hc].
Qed.

Lemma rstrip_starts (s : string) :
  starts_in Chr.isspace s = false -> starts_in Chr.isspace (Str.rstrip s) = false.
Proof.
  destruct s as [|c s]; simpl; [reflexivity|]. intros Hc.
  destruct (Str.rstrip s); [rewrite Hc|]; simpl; assumption.
Qed.

Lemma rstrip_idem (s : string) : Str.rstrip (Str.rstrip s) = Str.rstrip s.
Proof.
  induction s as [|c s IH]; simpl; [reflexivity|].
  destruct (Str.rstrip s) as [|d r] eqn:Hr.
  - destruct (Chr.isspace c) eqn:Hc; simpl; [reflexivity | now rewrite Hc].
  - cbn [Str.rstrip]. cbn [Str.rstrip] in IH. now rewrite IH.
Qed.

Lemma strip_fixed (s : string) : Str.strip (Str.strip s) = Str.strip s.
Proof.
  unfold Str.strip.
  rewrite (lstrip_fixed (Str.rstrip (Str.lstrip s))); [apply rstrip_idem|].
  apply rstrip_starts, lstrip_starts.
Qed.

Lemma rstrip_cons (c : ascii) (s : string) :
  Chr.isspace c = false -> Str.rstrip s = s -> Str.rstrip (String c s) = String c s.
Proof. intros Hc Hs. simpl. rewrite Hs, Hc. now destruct s. Qed.

Lemma rstrip_suffix (a b : string) : Str.rstrip (a ++ b) = a ++ b -> Str.rstrip b = b.
Proof.
  induction a as [|c a IH]; simpl; [auto|]. intros H.
  destruct (Str.rstrip (a ++ b)) as [|d r] eqn:Hr.
  - destruct (Chr.isspace c); [discriminate|]. injection H as H.
    destruct a; simpl in H; [now subst | discriminate].
  - injection H as H. apply IH. exact H.
Qed.

Lemma forallb_app (p : ascii -> bool) (a b : string) :
  Str.forallb p (a ++ b) = Str.forallb p a && Str.forallb p b.
Proof. induction a as [|c a IH]; simpl; [reflexivity | now rewrite IH, andb_assoc]. Qed.

Lemma forallb_impl (p q : ascii -> bool) (s : string) :
  (forall c, p c = true -> q c = true) -> Str.forallb p s = true -> Str.forallb q s = true.
Proof.
  intros H. induction s as [|c s IH]; simpl; [reflexivity|].
  intros Hs. apply andb_prop in Hs as [Hc Hs]. now rewrite (H c Hc), (IH Hs).
Qed.

Lemma rstrip_nonspace (s : string) :
  Str.forallb Chr.nonspace s = true -> Str.rstrip s = s.
Proof.
  induction s as [|c s IH]; simpl; [reflexivity|]. intros H.
  apply andb_prop in H as [Hc Hs]. rewrite (IH Hs).
  unfold Chr.nonspace in Hc. apply negb_true_iff in Hc. rewrite Hc. now destruct s.
Qed.

Lemma strip_nonspace (s : string) :
  Str.forallb Chr.nonspace s = true -> Str.strip s = s.
Proof.
  intros H. unfold Str.strip. rewrite lstrip_fixed; [now apply rstrip_nonspace|].
  destruct s as [|c s]; simpl in *; [reflexivity|].
  apply andb_prop in H as [Hc _]. unfold Chr.nonspace in Hc. now apply negb_true_iff.
Qed.

Lemma drop_prefix_Some (l s rest : string) :
  Str.drop_prefix l s = Some rest -> s = l ++ rest.
Proof.
  revert s. induction l as [|a l IH]; simpl; intros s H; [congruence|].
  destruct s as [|b s]; [discriminate|].
  destruct (Ascii.eqb a b) eqn:Hab; [|discriminate].
  apply Ascii.eqb_eq in Hab as ->. now rewrite (IH s H).
Qed.

(** The prefix substitution keeps a trimmed name trimmed. *)
Lemma replace_prefix_stripped_table (table : list (string * string)) (s : string) :
  Forall (fun e : string * string =>
            exists a b, snd e = String a (String b "") /\
                        Chr.isspace a = false /\ Chr.isspace b = false) table ->
  Str.strip s = s -> Str.strip (replace_prefix table s) = replace_prefix table s.
Proof.
  intros Ht Hs.
  assert (Hr : Str.rstrip s = s).
  { rewrite <- Hs at 1. unfold Str.strip. rewrite rstrip_idem. exact Hs. }
  induction Ht as [|[l sh] table (a & b & Hsh & Ha & Hb) _ IH]; simpl; [exact Hs|].
  destruct (Str.drop_prefix l s) as [rest|] eqn:Hd; [|exact IH].
  apply drop_prefix_Some in Hd. subst s. simpl in Hsh. subst sh.
  apply rstrip_suffix in Hr. unfold Str.strip. simpl String.append.
  rewrite lstrip_fixed by exact Ha.
  exact (rstrip_cons a _ Ha (rstrip_cons b rest Hb Hr)).
Qed.

Lemma replace_prefix_stripped (s : string) :
  Str.strip s = s -> Str.strip (replace_prefix PREFIX_MAP s) = replace_prefix PREFIX_MAP s.
Proof.
  apply replace_prefix_stripped_table.
  repeat constructor; do 2 eexists; repeat split.
Qed.

Lemma replace_prefix_none (table : list (string * string)) (s : string) :
  existsb (fun e : string * string => Str.startswith (fst e) s) table = false ->
  replace_prefix table s = s.
Proof.
  induction table as [|[l sh] table IH]; simpl; [reflexivity|]. intros H.
  apply orb_false_elim in H as [H1 H2]. unfold Str.startswith in H1.
  destruct (Str.drop_prefix l s); [discriminate | auto].
Qed.
(** ** Decimal notation *)

Lemma string_of_uint_digits (d : Decimal.uint) :
  Str.forallb Chr.isdigit (NilEmpty.string_of_uint d) = true.
Proof. induction d; simpl; auto. Qed.

Lemma to_uint_nonnil (n : N) : N.to_uint n <> Decimal.Nil.
Proof.
  destruct n as [|p]; simpl; [discriminate|]. apply DecimalPos.Unsigned.to_uint_nonnil.
Qed.

Lemma str_of_int_word (n : N) : word Chr.isdigit (str_of_int n) = true.
Proof.
  unfold str_of_int, word. pose proof (to_uint_nonnil n) as Hn.
  pose proof (string_of_uint_digits (N.to_uint n)) as Hd.
  destruct (N.to_uint n); try contradiction; simpl in *; exact Hd.
Qed.

Lemma int_of_str_of_int (n : N) : int_of_digits (str_of_int n) = n.
Proof.
  unfold int_of_digits, str_of_int.
  rewrite NilZero.usu by apply to_uint_nonnil. apply DecimalN.Unsigned.of_to.
Qed.

(** ** [normalize_port] on its own results *)

Lemma scan_one_Some (s name rest : string) (ds : list string) :
  scan_one s = Some (name, ds, rest) ->
  word Chr.isletter name = true /\ length ds = 1%nat.
Proof.
  unfold scan_one. intros H.
  destruct (take_run Chr.isletter s) as [[n s1]|] eqn:H1; simpl in H; [|discriminate].
  destruct (take_run Chr.isdigit s1) as [[d1 s2]|] eqn:H2; simpl in H; [|discriminate].
  injection H as <- <- <-. apply take_run_Some in H1 as (_ & Hn & _). auto.
Qed.

Lemma scan_two_Some (s name rest : string) (ds : list string) :
  scan_two s = Some (name, ds, rest) ->
  word Chr.isletter name = true /\ length ds = 2%nat.
Proof.
  unfold scan_two. intros H.
  destruct (scan_one s) as [[[n ds1] s2]|] eqn:H1; simpl in H; [|discriminate].
  destruct (take_slash s2) as [s3|]; simpl in H; [|discriminate].
  destruct (take_run Chr.isdigit s3) as [[d2 s4]|]; simpl in H; [|discriminate].
  injection H as <- <- <-. apply scan_one_Some in H1 as [Hn Hl].
  rewrite List.length_app, Hl. auto.
Qed.

Lemma scan_three_Some (s name rest : string) (ds : list string) :
  scan_three s = Some (name, ds, rest) ->
  word Chr.isletter name = true /\ length ds = 3%nat.
Proof.
  unfold scan_three. intros H.
  destruct (scan_two s) as [[[n ds1] s2]|] eqn:H1; simpl in H; [|discriminate].
  destruct (take_slash s2) as [s3|]; simpl in H; [|discriminate].
  destruct (take_run Chr.isdigit s3) as [[d2 s4]|]; simpl in H; [|discriminate].
  injection H as <- <- <-. apply scan_two_Some in H1 as [Hn Hl].
  rewrite List.length_app, Hl. auto.
Qed.

(** Either a pattern matched and the result is a rendered name, or the
    name passed through unchanged. *)
Lemma canonical_cases (p : string) :
  (exists name ds, word Chr.isletter name = true /\ (1 <= length ds <= 3)%nat /\
                   canonical p = render name ds) \/
  canonical p = p.
Proof.
  unfold canonical.
  destruct (scan_three p) as [[[n ds] r]|] eqn:H3.
  { left. exists n, ds. apply scan_three_Some in H3 as [? ->]. repeat split; auto; lia. }
  destruct (scan_two p) as [[[n ds] r]|] eqn:H2.
  { left. exists n, ds. apply scan_two_Some in H2 as [? ->]. repeat split; auto; lia. }
  destruct (scan_one p) as [[[n ds] r]|] eqn:H1.
  { left. exists n, ds. apply scan_one_Some in H1 as [? ->]. repeat split; auto; lia. }
  now right.
Qed.

Lemma render_spell (name : string) (ds : list string) :
  render name ds = spell name (rendered ds) ++ "".
Proof. unfold render, spell, rendered. now rewrite strapp_empty_r. Qed.

Lemma render_rendered (name : string) (ds : list string) :
  render name (rendered ds) = render name ds.
Proof.
  unfold render, rendered. rewrite List.map_map. f_equal. f_equal.
  apply List.map_ext. intros d. now rewrite int_of_str_of_int.
Qed.

Lemma canonical_render (name : string) (ds : list string) :
  word Chr.isletter name = true -> (1 <= length ds <= 3)%nat ->
  canonical (render name ds) = render name ds.
Proof.
  intros Hn Hl. rewrite render_spell at 1.
  rewrite canonical_spelled.
  - apply render_rendered.
  - exact Hn.
  - unfold rendered. now rewrite length_map.
  - unfold rendered. apply List.Forall_forall. intros d Hd.
    apply in_map_iff in Hd as (x & <- & _). apply str_of_int_word.
  - unfold extends. simpl. apply andb_false_r.
Qed.

Lemma join_nonspace (l : list string) :
  Forall (fun d => Str.forallb Chr.nonspace d = true) l ->
  Str.forallb Chr.nonspace (Str.join "/" l) = true.
Proof.
  induction 1 as [|d l Hd Hl IH]; [reflexivity|].
  destruct l as [|e l]; [exact Hd|].
  change (Str.join "/" (d :: e :: l)) with (d ++ "/" ++ Str.join "/" (e :: l)).
  rewrite !forallb_app, Hd, IH. reflexivity.
Qed.

Lemma render_nonspace (name : string) (ds : list string) :
  word Chr.isletter name = true ->
  Str.forallb Chr.nonspace (render name ds) = true.
Proof.
  intros Hn. unfold render. rewrite forallb_app. apply andb_true_intro. split.
  - unfold word in Hn. apply andb_prop in Hn as [_ Hn].
    apply (forallb_impl Chr.isletter); [|exact Hn].
    intros c Hc. unfold Chr.nonspace. now rewrite (letter_nonspace c Hc).
  - apply join_nonspace. apply List.Forall_forall. intros d Hd.
    apply in_map_iff in Hd as (x & <- & _).
    pose proof (str_of_int_word (int_of_digits x)) as Hw.
    unfold word in Hw. apply andb_prop in Hw as [_ Hw].
    apply (forallb_impl Chr.isdigit); [|exact Hw].
    intros c Hc. unfold Chr.nonspace. now rewrite (digit_nonspace c Hc).
Qed.

Lemma normalize_port_idempotent (x : string) :
  has_long_prefix (normalize_port x) = false ->
  normalize_port (normalize_port x) = normalize_port x.
Proof.
  intros Hp. rewrite (normalize_port_canonical (normalize_port x)).
  assert (Hs : Str.strip (normalize_port x) = normalize_port x).
  { rewrite normalize_port_canonical.
    destruct (canonical_cases (replace_prefix PREFIX_MAP (Str.strip x)))
      as [(name & ds & Hn & _ & ->) | ->].
    - now apply strip_nonspace, render_nonspace.
    - apply replace_prefix_stripped, strip_fixed. }
  rewrite Hs, (replace_prefix_none _ _ Hp).
  rewrite normalize_port_canonical.
  destruct (canonical_cases (replace_prefix PREFIX_MAP (Str.strip x)))
    as [(name & ds & Hn & Hl & ->) | Hq].
  - now apply canonical_render.
  - now rewrite !Hq.
Qed.

(** ** [normalize_mac] on its own results *)

Lemma string_ind2 (P : string -> Prop) :
  P "" -> (forall a, P (String a "")) ->
  (forall a b s, P s -> P (String a (String b s))) ->
  forall s, P s.
Proof.
  intros H0 H1 H2.
  assert (H : forall s, P s /\ forall a, P (String a s)).
  { induction s as [|c s [IHs IHc]]; split; auto. }
  intros s. apply H.
Qed.

Lemma rejoin_cons2 (a b c : ascii) (s : string) :
  rejoin (String a (String b (String c s))) =
  String a (String b (String ":" (rejoin (String c s)))).
Proof.
  destruct s; reflexivity.
Qed.

Lemma rejoin_length (s : string) : (String.length s <= String.length (rejoin s))%nat.
Proof.
  induction s as [| a | a b s IH] using string_ind2; [simpl; lia | simpl; lia |].
  destruct s as [|c s]; [simpl; lia|].
  rewrite rejoin_cons2. simpl in *. lia.
Qed.

Lemma rejoin_longer (s : string) :
  (3 <= String.length s)%nat -> (String.length s < String.length (rejoin s))%nat.
Proof.
  destruct s as [|a [|b [|c s]]]; simpl; try lia. intros _.
  rewrite rejoin_cons2. pose proof (rejoin_length (String c s)). simpl in *. lia.
Qed.

Lemma lower_not_dot (c : ascii) : Ascii.eqb c "." = false -> Ascii.eqb (Chr.lower c) "." = false.
Proof. all_chars c. Qed.

Lemma lower_lower (c : ascii) : Chr.lower (Chr.lower c) = Chr.lower c.
Proof. destruct c as [[] [] [] [] [] [] [] []]; reflexivity. Qed.

Lemma plain_lower_remove (m : string) : plain (Str.lower (Str.remove "." m)).
Proof.
  unfold plain, Str.lower. induction m as [|c m [IH1 IH2]]; simpl; [auto|].
  destruct (Ascii.eqb c ".") eqn:Hc; [auto|]. simpl.
  rewrite (lower_not_dot c Hc), lower_lower, IH1, IH2. auto.
Qed.

Lemma plain_cons (c : ascii) (s : string) :
  plain (String c s) -> Ascii.eqb c "." = false /\ Chr.lower c = c /\ plain s.
Proof.
  unfold plain, Str.lower. simpl. intros [H1 H2].
  destruct (Ascii.eqb c ".") eqn:Hc.
  - exfalso. assert (Hl : forall t, (String.length (Str.remove "." t) <= String.length t)%nat).
    { induction t as [|x t IHt]; simpl; [lia|]. destruct (Ascii.eqb x "."); simpl; lia. }
    pose proof (Hl s) as Hs. rewrite H1 in Hs. simpl in Hs. lia.
  - injection H1 as H1. injection H2 as H2 H3. auto.
Qed.

Lemma plain_rejoin (s : string) : plain s -> plain (rejoin s).
Proof.
  induction s as [| a | a b s IH] using string_ind2; intros Hp; [exact Hp | exact Hp |].
  apply plain_cons in Hp as (Ha & La & Hp). pose proof Hp as Hp'.
  apply plain_cons in Hp as (Hb & Lb & Hp).
  destruct s as [|c s].
  - unfold rejoin, plain, Str.lower. simpl. rewrite Ha, Hb, La, Lb. auto.
  - rewrite rejoin_cons2. destruct (IH Hp) as [I1 I2].
    unfold plain, Str.lower in *. simpl. rewrite Ha, Hb, La, Lb. simpl.
    change (Str.map Chr.lower (rejoin (String c s))) with (Str.lower (rejoin (String c s))).
    unfold Str.lower. rewrite I1, I2. auto.
Qed.

Lemma normalize_mac_rejoin (m : string) :
  normalize_mac m = rejoin (Str.lower (Str.remove "." m)).
Proof. reflexivity. Qed.

Lemma normalize_mac_plain (s : string) : plain s -> normalize_mac s = rejoin s.
Proof. intros [H1 H2]. rewrite normalize_mac_rejoin, H1, H2. reflexivity. Qed.

Lemma lower_length (s : string) : String.length (Str.lower s) = String.length s.
Proof. unfold Str.lower. induction s as [|c s IH]; simpl; [reflexivity | now rewrite IH]. Qed.

Lemma normalize_mac_idempotent_iff (m : string) :
  normalize_mac (normalize_mac m) = normalize_mac m <->
  (String.length (Str.remove "." m) <= 2)%nat.
Proof.
  pose proof (plain_lower_remove m) as Hp.
  rewrite (normalize_mac_rejoin m), <- (lower_length (Str.remove "." m)).
  set (t := Str.lower (Str.remove "." m)) in *.
  rewrite (normalize_mac_plain (rejoin t)) by now apply plain_rejoin.
  split.
  - intros H. destruct (le_lt_dec (String.length t) 2) as [|Hl]; [assumption|].
    exfalso. pose proof (rejoin_longer t Hl) as H1.
    assert (H2 : (3 <= String.length (rejoin t))%nat) by lia.
    apply rejoin_longer in H2. rewrite H in H2. lia.
  - intros H. destruct t as [|a [|b [|c t]]]; simpl in H; try lia; reflexivity.
Qed.

(** ** [normalize_port] returns on its own results *)

Lemma string_of_uint_length (d : Decimal.uint) :
  String.length (NilEmpty.string_of_uint d) = Decimal.nb_digits d.
Proof. induction d; simpl; auto. Qed.

Lemma nilzero_length (d : Decimal.uint) :
  d <> Decimal.Nil -> String.length (NilZero.string_of_uint d) = Decimal.nb_digits d.
Proof.
  intros Hd. unfold NilZero.string_of_uint.
  destruct d; try contradiction; apply string_of_uint_length.
Qed.

(** A number is written with no more digits than it was read from. *)
Lemma rendered_length (d : string) :
  d <> "" -> (String.length (str_of_int (int_of_digits d)) <= String.length d)%nat.
Proof.
  intros Hd. unfold str_of_int, int_of_digits.
  destruct (NilZero.uint_of_string d) as [u|] eqn:Hu.
  - assert (Hn : u <> Decimal.Nil)
      by (intros ->; now apply (NilZero.uint_of_string_nonnil d)).
    rewrite DecimalN.Unsigned.to_of.
    rewrite nilzero_length by (now apply DecimalFacts.unorm_nonnil).
    rewrite <- (NilZero.sus d u Hu), (nilzero_length u Hn).
    now apply DecimalFacts.nb_digits_unorm.
  - destruct d; [contradiction | simpl; lia].
Qed.

Lemma refuses_shorter (a b : string) :
  (String.length a <= String.length b)%nat -> int_refuses b = false -> int_refuses a = false.
Proof.
  unfold int_refuses, over_limit. intros Hl Hb.
  apply Nat.ltb_ge in Hb. apply Nat.ltb_ge. lia.
Qed.

Lemma raises_refused (port : string) :
  normalize_port_raises port = refused (replace_prefix PREFIX_MAP (Str.strip port)).
Proof.
  unfold normalize_port_raises, refused.
  set (p := replace_prefix PREFIX_MAP (Str.strip port)).
  rewrite rmatch_three, rmatch_two, rmatch_one.
  unfold scan_three, scan_two, scan_one.
  destruct (take_run Chr.isletter p) as [[name s1]|]; simpl; [|reflexivity].
  destruct (take_run Chr.isdigit s1) as [[d1 s2]|]; simpl; [|reflexivity].
  destruct (take_slash s2) as [s3|]; simpl; [|now rewrite ?orb_false_r].
  destruct (take_run Chr.isdigit s3) as [[d2 s4]|]; simpl; [|now rewrite ?orb_false_r].
  destruct (take_slash s4) as [s5|]; simpl; [|now rewrite ?orb_false_r].
  destruct (take_run Chr.isdigit s5) as [[d3 s6]|]; simpl;
    now rewrite ?orb_false_r, ?orb_assoc.
Qed.

Lemma scan_one_digits (s name rest : string) (ds : list string) :
  scan_one s = Some (name, ds, rest) -> Forall (fun d => word Chr.isdigit d = true) ds.
Proof.
  unfold scan_one. intros H.
  destruct (take_run Chr.isletter s) as [[n s1]|] eqn:H1; simpl in H; [|discriminate].
  destruct (take_run Chr.isdigit s1) as [[d1 s2]|] eqn:H2; simpl in H; [|discriminate].
  injection H as <- <- <-. apply take_run_Some in H2 as (_ & Hd & _).
  now repeat constructor.
Qed.

Lemma scan_two_digits (s name rest : string) (ds : list string) :
  scan_two s = Some (name, ds, rest) -> Forall (fun d => word Chr.isdigit d = true) ds.
Proof.
  unfold scan_two. intros H.
  destruct (scan_one s) as [[[n ds1] s2]|] eqn:H1; simpl in H; [|discriminate].
  destruct (take_slash s2) as [s3|]; simpl in H; [|discriminate].
  destruct (take_run Chr.isdigit s3) as [[d2 s4]|] eqn:H2; simpl in H; [|discriminate].
  injection H as <- <- <-. apply scan_one_digits in H1.
  apply take_run_Some in H2 as (_ & Hd & _).
  apply List.Forall_app. split; [exact H1 | now repeat constructor].
Qed.

Lemma scan_three_digits (s name rest : string) (ds : list string) :
  scan_three s = Some (name, ds, rest) -> Forall (fun d => word Chr.isdigit d = true) ds.
Proof.
  unfold scan_three. intros H.
  destruct (scan_two s) as [[[n ds1] s2]|] eqn:H1; simpl in H; [|discriminate].
  destruct (take_slash s2) as [s3|]; simpl in H; [|discriminate].
  destruct (take_run Chr.isdigit s3) as [[d2 s4]|] eqn:H2; simpl in H; [|discriminate].
  injection H as <- <- <-. apply scan_two_digits in H1.
  apply take_run_Some in H2 as (_ & Hd & _).
  apply List.Forall_app. split; [exact H1 | now repeat constructor].
Qed.

(** The value and the refusal come from the same reading of the name. *)
Lemma scan_cases (p : string) :
  (exists name ds, word Chr.isletter name = true /\ (1 <= length ds <= 3)%nat /\
                   Forall (fun d => word Chr.isdigit d = true) ds /\
                   canonical p = render name ds /\
                   refused p = existsb int_refuses ds) \/
  (canonical p = p /\ refused p = false).
Proof.
  unfold canonical, refused.
  destruct (scan_three p) as [[[n ds] r]|] eqn:H3.
  { left. exists n, ds. pose proof (scan_three_digits _ _ _ _ H3).
    apply scan_three_Some in H3 as [? ->]. repeat split; auto; lia. }
  destruct (scan_two p) as [[[n ds] r]|] eqn:H2.
  { left. exists n, ds. pose proof (scan_two_digits _ _ _ _ H2).
    apply scan_two_Some in H2 as [? ->]. repeat split; auto; lia. }
  destruct (scan_one p) as [[[n ds] r]|] eqn:H1.
  { left. exists n, ds. pose proof (scan_one_digits _ _ _ _ H1).
    apply scan_one_Some in H1 as [? ->]. repeat split; auto; lia. }
  now right.
Qed.

Lemma refused_spelled (name rest : string) (ds : list string) :
  word Chr.isletter name = true ->
  (1 <= length ds <= 3)%nat ->
  Forall (fun d => word Chr.isdigit d = true) ds ->
  extends (length ds) rest = false ->
  refused (spell name ds ++ rest) = existsb int_refuses ds.
Proof.
  intros Hn Hlen Hds Hext. unfold extends in Hext.
  apply orb_false_elim in Hext as [Hr Hext].
  destruct ds as [|d1 [|d2 [|d3 [|d4 ds]]]]; simpl in Hlen; try lia.
  - inversion Hds as [|? ? H1 _]; subst. simpl in Hext.
    rewrite spell_one. unfold refused, scan_three, scan_two.
    rewrite (scan_one_spelled name d1 rest Hn H1 Hr).
    simpl. pose proof (no_further_component rest Hext) as Hno.
    destruct (take_slash rest) as [s|]; simpl in *; [|reflexivity].
    rewrite Hno. reflexivity.
  - inversion Hds as [|? ? H1 Hds']; subst. inversion Hds' as [|? ? H2 _]; subst.
    simpl in Hext. rewrite spell_two. unfold refused, scan_three.
    rewrite (scan_two_spelled name d1 d2 rest Hn H1 H2 Hr).
    simpl. pose proof (no_further_component rest Hext) as Hno.
    destruct (take_slash rest) as [s|]; simpl in *; [|reflexivity].
    rewrite Hno. reflexivity.
  - inversion Hds as [|? ? H1 Hds']; subst. inversion Hds' as [|? ? H2 Hds'']; subst.
    inversion Hds'' as [|? ? H3 _]; subst.
    rewrite spell_three. unfold refused.
    now rewrite (scan_three_spelled name d1 d2 d3 rest Hn H1 H2 H3 Hr).
Qed.

Lemma rendered_not_refused (ds : list string) :
  Forall (fun d => word Chr.isdigit d = true) ds ->
  existsb int_refuses ds = false ->
  existsb int_refuses (rendered ds) = false.
Proof.
  induction 1 as [|d ds Hd _ IH]; [reflexivity|].
  cbn [existsb rendered List.map]. intros H. apply orb_false_elim in H as [H1 H2].
  fold (rendered ds). rewrite (IH H2), orb_false_r.
  apply (refuses_shorter _ d); [|exact H1]. apply rendered_length.
  intros ->. discriminate Hd.
Qed.

(** When [normalize_port] returns, it returns on its result too. *)
Lemma normalize_port_returns_again (x : string) :
  has_long_prefix (normalize_port x) = false ->
  normalize_port_raises x = false ->
  normalize_port_raises (normalize_port x) = false.
Proof.
  intros Hp Hx. rewrite raises_refused in *.
  assert (Hs : Str.strip (normalize_port x) = normalize_port x).
  { rewrite normalize_port_canonical.
    destruct (canonical_cases (replace_prefix PREFIX_MAP (Str.strip x)))
      as [(name & ds & Hn & _ & ->) | ->].
    - now apply strip_nonspace, render_nonspace.
    - apply replace_prefix_stripped, strip_fixed. }
  rewrite Hs, (replace_prefix_none _ _ Hp).
  rewrite normalize_port_canonical.
  destruct (scan_cases (replace_prefix PREFIX_MAP (Str.strip x)))
    as [(name & ds & Hn & Hl & Hd & -> & Hr) | [-> Hr]].
  - rewrite render_spell, refused_spelled.
    + apply rendered_not_refused; [exact Hd | now rewrite <- Hr].
    + exact Hn.
    + unfold rendered. now rewrite length_map.
    + unfold rendered. apply List.Forall_forall. intros d Hin.
      apply in_map_iff in Hin as (y & <- & _). apply str_of_int_word.
    + unfold extends. simpl. apply andb_false_r.
  - exact Hx.
Qed.

(** ** Idempotence (C2) *)

(** C2, as stated, fails for both canonicalisers: a canonical address is
    chunked again by [normalize_mac], and a name whose canonical form
    starts with a verbose prefix is shortened again by [normalize_port]. *)
Lemma idempotence_counterexample :
  normalize_mac (normalize_mac "AABB.CCDD.EEFF") <> normalize_mac "AABB.CCDD.EEFF" /\
  normalize_port (normalize_port "GigabitEthernetgabitEthernet1")
    <> normalize_port "GigabitEthernetgabitEthernet1".
Proof. split; vm_compute; discriminate. Qed.

(** C2 (amended). On every input whose canonical form does not begin with
    a verbose prefix of [PREFIX_MAP], [normalize_port] gives the same
    result when applied again, and returns again when it returned.
    [normalize_mac] is idempotent exactly on the inputs that, without their
    dots and in lower case, have at most two characters. *)
Theorem canonicalizers_idempotence (p m : string) :
  has_long_prefix (normalize_port p) = false ->
  normalize_port (normalize_port p) = normalize_port p /\
  (normalize_port_raises p = false -> normalize_port_raises (normalize_port p) = false) /\
  (normalize_mac (normalize_mac m) = normalize_mac m <->
   (String.length (Str.lower (Str.remove "." m)) <= 2)%nat).
Proof.
  intros Hp. split_all.
  - now apply normalize_port_idempotent.
  - now apply normalize_port_returns_again.
  - rewrite lower_length. apply normalize_mac_idempotent_iff.
Qed.

Lemma canonicalizers_idempotence_witness :
  normalize_port (normalize_port " GigabitEthernet0/01 ") =
    normalize_port " GigabitEthernet0/01 " /\
  (normalize_port_raises " GigabitEthernet0/01 " = false ->
   normalize_port_raises (normalize_port " GigabitEthernet0/01 ") = false) /\
  (normalize_mac (normalize_mac "A.b") = normalize_mac "A.b" <->
   (String.length (Str.lower (Str.remove "." "A.b")) <= 2)%nat).
Proof. apply (canonicalizers_idempotence " GigabitEthernet0/01 " "A.b"). reflexivity. Defined.

(** ** Separators of a hardware address (C5) *)

Lemma spelled_bare_cons (o : octet) (octs : list octet) :
  spelled "" (o :: octs) = String (fst o) (String (snd o) (spelled "" octs)).
Proof. destruct octs; reflexivity. Qed.

Lemma hex_not_dot (c : ascii) : ishex c = true -> Ascii.eqb c "." = false.
Proof. all_chars c. Qed.

Lemma rejoin_bare (octs : list octet) :
  rejoin (spelled "" octs) = spelled ":" octs.
Proof.
  induction octs as [|o octs IH]; [reflexivity|].
  rewrite spelled_bare_cons. destruct octs as [|o' octs]; [reflexivity|].
  rewrite spelled_bare_cons in *. rewrite rejoin_cons2, IH. reflexivity.
Qed.

Lemma lower_bare (octs : list octet) :
  Str.lower (spelled "" octs) = spelled "" (List.map lower_octet octs).
Proof.
  induction octs as [|o octs IH]; [reflexivity|].
  cbn [List.map]. rewrite !spelled_bare_cons. unfold Str.lower in *. simpl.
  now rewrite IH.
Qed.

Lemma remove_dot_bare (octs : list octet) :
  Forall (fun o => hex_octet o = true) octs ->
  Str.remove "." (spelled "" octs) = spelled "" octs.
Proof.
  induction 1 as [|o octs Ho _ IH]; [reflexivity|].
  rewrite spelled_bare_cons. unfold hex_octet in Ho. apply andb_prop in Ho as [H1 H2].
  simpl. now rewrite (hex_not_dot _ H1), (hex_not_dot _ H2), IH.
Qed.

Lemma remove_dot_dotted (octs : list octet) :
  Forall (fun o => hex_octet o = true) octs ->
  Str.remove "." (spelled "." octs) = spelled "" octs.
Proof.
  induction 1 as [|o octs Ho Hs IH]; [reflexivity|].
  rewrite spelled_bare_cons. unfold hex_octet in Ho. apply andb_prop in Ho as [H1 H2].
  destruct octs as [|o' octs].
  - simpl. now rewrite (hex_not_dot _ H1), (hex_not_dot _ H2).
  - change (spelled "." (o :: o' :: octs))
      with (String (fst o) (String (snd o) (String "." (spelled "." (o' :: octs))))).
    simpl. rewrite (hex_not_dot _ H1), (hex_not_dot _ H2).
    simpl in IH. now rewrite IH.
Qed.

(** C5, as stated, fails: only dots are removed, so the dash-separated
    spelling keeps its dashes and is cut in the wrong places. *)
Lemma dash_separated_counterexample :
  normalize_mac "AA-BB-CC-DD-EE-FF" = "aa:-b:b-:cc:-d:d-:ee:-f:f" /\
  normalize_mac "AA-BB-CC-DD-EE-FF" <> normalize_mac "AABB.CCDD.EEFF".
Proof. split; vm_compute; [reflexivity | discriminate]. Qed.

(** C5 (amended). For every address made of hexadecimal octets, every
    spelling that differs from the separator-free one only by dots (one
    dot between octets, the grouping [AABB.CCDD.EEFF], or none) is
    mapped to the lower-case colon-separated string. *)
Theorem normalize_mac_dot_insensitive (octs : list octet) :
  Forall (fun o => hex_octet o = true) octs ->
  normalize_mac (spelled "" octs) = spelled ":" (List.map lower_octet octs) /\
  normalize_mac (spelled "." octs) = spelled ":" (List.map lower_octet octs) /\
  forall raw, Str.remove "." raw = spelled "" octs ->
              normalize_mac raw = spelled ":" (List.map lower_octet octs).
Proof.
  intros Hh.
  assert (Hraw : forall raw, Str.remove "." raw = spelled "" octs ->
                   normalize_mac raw = spelled ":" (List.map lower_octet octs)).
  { intros raw Hr. rewrite normalize_mac_rejoin, Hr, lower_bare. apply rejoin_bare. }
  repeat split.
  - apply Hraw. now apply remove_dot_bare.
  - apply Hraw. now apply remove_dot_dotted.
  - exact Hraw.
Qed.

Lemma normalize_mac_dot_insensitive_witness :
  normalize_mac "AABB.CCDD.EEFF" = "aa:bb:cc:dd:ee:ff".
Proof.
  apply (normalize_mac_dot_insensitive
           [("A", "A"); ("B", "B"); ("C", "C"); ("D", "D"); ("E", "E"); ("F", "F")]%char).
  - repeat constructor.
  - reflexivity.
Defined.

(** ** Ages (C9, C4) *)

(** C9. ["1w2d"] is nine days in seconds, ["00:05:30"] is 330 seconds, and
    the token [never], in any case, is the absence of a duration and not
    a duration of zero. *)
Theorem age_reference_values :
  _age_to_timedelta "1w2d" = Return (Some (9 * 86400)%Z) /\
  _age_to_timedelta "1w2d" = Return (Some 777600%Z) /\
  _age_to_timedelta "00:05:30" = Return (Some 330%Z) /\
  (forall text, Str.lower text = "never" -> _age_to_timedelta text = Return None) /\
  Return (A := option Z) None <> Return (Some 0%Z).
Proof.
  split; [vm_compute; reflexivity|].
  split; [vm_compute; reflexivity|].
  split; [vm_compute; reflexivity|].
  split; [|discriminate].
  intros text H. unfold _age_to_timedelta. now rewrite H.
Qed.

Lemma age_reference_values_witness :
  _age_to_timedelta "NeVer" = Return None.
Proof.
  apply (proj1 (proj2 (proj2 (proj2 age_reference_values)))). reflexivity.
Defined.

(** C4 at its failing input. ["00:00:00"] parses to a duration of zero,
    which is the smaller of the two ages; the filter [if d] drops it as
    falsy, so the stamp is [now] minus the other age, and ["Never"] when the
    other age is absent. *)
Theorem zero_age_is_dropped :
  _age_to_timedelta "00:00:00" = Return (Some 0%Z) /\
  _age_to_timedelta "00:05:30" = Return (Some 330%Z) /\
  _age_to_timedelta "never" = Return None /\
  fst (parse_last_traffic some_now traffic_just_received)
    = Return [MkTrafficRow "Gi1/0/1" (At (some_now - 330))] /\
  fst (parse_last_traffic some_now traffic_received_only)
    = Return [MkTrafficRow "Gi1/0/2" Never].
Proof. split_all; vm_compute; reflexivity. Qed.

(** ** One MAC-table entry per port (C7) *)

Lemma seen_In (k : string) (seen : list string) :
  existsb (String.eqb k) seen = true <-> In k seen.
Proof.
  rewrite existsb_exists. split.
  - intros (x & Hx & He). apply String.eqb_eq in He. now subst.
  - intros H. exists k. split; [exact H | apply String.eqb_refl].
Qed.

Section DropDuplicates.
Context {A : Type} (key : A -> string).

Lemma drop_duplicates_unseen (seen : list string) (rows : list A) (r : A) :
  In r (drop_duplicates key seen rows) -> ~ In (key r) seen.
Proof.
  revert seen. induction rows as [|x rows IH]; simpl; intros seen H; [contradiction|].
  destruct (existsb (String.eqb (key x)) seen) eqn:Hx; [now apply IH|].
  destruct H as [<- | H].
  - intros Hin. apply seen_In in Hin. congruence.
  - intros Hin. apply (IH _ H). now right.
Qed.

Lemma drop_duplicates_NoDup (seen : list string) (rows : list A) :
  NoDup (List.map key (drop_duplicates key seen rows)).
Proof.
  revert seen. induction rows as [|x rows IH]; simpl; intros seen; [constructor|].
  destruct (existsb (String.eqb (key x)) seen); [apply IH|].
  simpl. apply NoDup_cons_2; [|apply IH].
  intros Hin. apply list_elem_of_In, in_map_iff in Hin as (r & Hk & Hr).
  apply drop_duplicates_unseen in Hr. apply Hr. rewrite Hk. now left.
Qed.

Lemma drop_duplicates_first (seen : list string) (rows : list A) (r : A) :
  In r (drop_duplicates key seen rows) ->
  exists pre post, rows = (pre ++ r :: post)%list /\
                   forall r', In r' pre -> key r' <> key r.
Proof.
  revert seen. induction rows as [|x rows IH]; simpl; intros seen H; [contradiction|].
  destruct (existsb (String.eqb (key x)) seen) eqn:Hx.
  - pose proof (drop_duplicates_unseen _ _ _ H) as Hr.
    destruct (IH _ H) as (pre & post & -> & Hpre).
    exists (x :: pre), post. split; [reflexivity|].
    intros r' [<- | Hin]; [|now apply Hpre].
    intros He. apply Hr. rewrite <- He. now apply seen_In.
  - destruct H as [<- | H].
    + exists [], rows. split; [reflexivity | intros ? []].
    + pose proof (drop_duplicates_unseen _ _ _ H) as Hr.
      destruct (IH _ H) as (pre & post & -> & Hpre).
      exists (x :: pre), post. split; [reflexivity|].
      intros r' [<- | Hin]; [|now apply Hpre].
      intros He. apply Hr. rewrite <- He. now left.
Qed.

Lemma drop_duplicates_covers (seen : list string) (rows : list A) (r : A) :
  In r rows -> ~ In (key r) seen ->
  exists r', In r' (drop_duplicates key seen rows) /\ key r' = key r.
Proof.
  revert seen. induction rows as [|x rows IH]; simpl; intros seen H Hs; [contradiction|].
  destruct (existsb (String.eqb (key x)) seen) eqn:Hx.
  - destruct H as [<- | H]; [exfalso; apply Hs; now apply seen_In|].
    now apply IH.
  - destruct (String.eqb (key x) (key r)) eqn:He.
    + apply String.eqb_eq in He. exists x. split; [now left | exact He].
    + destruct H as [<- | H]; [rewrite String.eqb_refl in He; discriminate|].
      destruct (IH (key x :: seen) H) as (r' & Hr' & Hk).
      * intros [Hin | Hin]; [|contradiction].
        rewrite Hin, String.eqb_refl in He. discriminate.
      * exists r'. split; [now right | exact Hk].
Qed.
End DropDuplicates.

(** C7. For every MAC-table text the result has at most one entry per
    port; each entry kept is the first matched row of its port, and every
    port that was matched keeps an entry. *)
Theorem parse_mac_table_first_wins (api : service) (output : string) (w : world) :
  let matched := fst (mac_rows api (Re.finditer true MacRe.patt output) w) in
  let kept := fst (parse_mac_table api output w) in
  NoDup (List.map mac_port kept) /\
  (forall r, In r kept ->
     exists pre post, matched = (pre ++ r :: post)%list /\
                      forall r', In r' pre -> mac_port r' <> mac_port r) /\
  (forall r, In r matched -> exists r', In r' kept /\ mac_port r' = mac_port r).
Proof.
  intros matched kept.
  assert (Hk : kept = drop_duplicates mac_port [] matched).
  { unfold kept, matched, parse_mac_table.
    now destruct (mac_rows api (Re.finditer true MacRe.patt output) w). }
  rewrite Hk. repeat split.
  - apply drop_duplicates_NoDup.
  - apply drop_duplicates_first.
  - intros r Hr. apply drop_duplicates_covers; [exact Hr | intros []].
Qed.
(** ** Vendor cache (C6, C8) *)






Lemma digit_not_colon (c : ascii) : Chr.isdigit c = true -> Ascii.eqb c ":" = false.
Proof. all_chars c. Qed.




(** What one resolution does to the world. *)
Lemma get_vendor_hit (api : service) (mac v : string) (w : world) :
  oui_dict w !! oui_of mac = Some v -> get_vendor api mac w = (v, w).
Proof. unfold get_vendor. now intros ->. Qed.

Lemma get_vendor_miss (api : service) (mac : string) (w : world) :
  oui_dict w !! oui_of mac = None ->
  exists v,
    get_vendor api mac w =
      (v, World (<[oui_of mac := v]> (oui_dict w))
                (update_oui_cache (oui_of mac) v (oui_file w))
                (mac :: requests w)) /\
    v = match api (requests w) mac with Ok text => text | _ => "Unknown" end.
Proof.
  unfold get_vendor. intros ->.
  destruct (api (requests w) mac); eexists; split; reflexivity.
Qed.



(** C8 at its failing input. The MAC table lists an address of one octet,
    whose OUI is ["12"]. The first run asks the service and writes one row.
    At the next run the OUI column is read back as a number: the
    dictionary does not have the text ["12"], the service is asked again,
    and the test before writing does not find the text either, so that a
    second row is written for the same OUI. With a full address the second
    run finds the OUI, asks nothing and writes nothing. *)
Theorem numeric_oui_is_stored_twice :
  (let first := snd (parse_mac_table no_service mac_one_octet (start_of_run [])) in
   let second := snd (parse_mac_table no_service mac_one_octet
                        (start_of_run (oui_file first))) in
   requests first = ["12"] /\
   oui_file first = [("12", "Unknown")] /\
   load_oui_cache (oui_file first) !! "12" = None /\
   in_column "12" (oui_file first) = false /\
   requests second = ["12"] /\
   oui_file second = [("12", "Unknown"); ("12", "Unknown")] /\
   rows_for "12" (oui_file second) = 2%nat) /\
  (let first := snd (parse_mac_table no_service mac_full_address (start_of_run [])) in
   let second := snd (parse_mac_table no_service mac_full_address
                        (start_of_run (oui_file first))) in
   requests first = ["aa:bb:cc:dd:ee:ff"] /\
   oui_file first = [("aa:bb:cc", "Unknown")] /\
   requests second = [] /\
   oui_file second = [("aa:bb:cc", "Unknown")] /\
   rows_for "aa:bb:cc" (oui_file second) = 1%nat).
Proof. cbv zeta. split_all; vm_compute; reflexivity. Qed.

Lemma parse_mac_table_first_wins_witness :
  NoDup (List.map mac_port (fst (parse_mac_table no_service mac_two_on_port (start_of_run [])))) /\
  fst (parse_mac_table no_service mac_two_on_port (start_of_run []))
  = [ MkMacRow "Gi1/0/1" "aa:bb:cc:dd:ee:ff" "Unknown";
      MkMacRow "Gi1/0/2" "00:11:22:33:44:66" "Unknown" ].
Proof.
  split.
  - exact (proj1 (parse_mac_table_first_wins no_service mac_two_on_port (start_of_run []))).
  - vm_compute. reflexivity.
Defined.

(** ** Lines that match no pattern (C3) *)

Lemma status_lines_app (a b : list string) :
  status_lines (a ++ b) =
  ((fst (status_lines a) ++ fst (status_lines b))%list,
   (snd (status_lines a) ++ snd (status_lines b))%list).
Proof.
  induction a as [|line a IH]; simpl.
  - now destruct (status_lines b).
  - rewrite IH. destruct (status_lines a) as [ra la], (status_lines b) as [rb lb]. simpl.
    destruct (status_skipped line); [reflexivity|].
    destruct (Re.rmatch true StatusRe.patt (Str.rstrip line)); reflexivity.
Qed.

Lemma status_lines_malformed (bad : string) :
  malformed bad = true ->
  status_lines [bad] = ([], [(DEBUG, "Unparsed status line: " ++ bad)]).
Proof.
  unfold malformed, status_matches. intros H. apply andb_prop in H as [Hs Hm].
  apply negb_true_iff in Hs. simpl. rewrite Hs.
  destruct (Re.rmatch true StatusRe.patt (Str.rstrip bad)); [discriminate | reflexivity].
Qed.

Lemma status_raises_malformed (bad : string) :
  malformed bad = true -> status_raises [bad] = false.
Proof.
  unfold malformed, status_matches, status_raises. intros H. apply andb_prop in H as [Hs Hm].
  simpl. rewrite Hs.
  destruct (Re.rmatch true StatusRe.patt (Str.rstrip bad)); [discriminate | reflexivity].
Qed.

(** Every line is accounted for: a row for each line that is not skipped
    and matches, a record for each line that is not skipped and does not
    match, nothing for the others. *)
Lemma status_lines_count (lines : list string) :
  length (fst (status_lines lines)) = length (List.filter well_formed lines) /\
  length (snd (status_lines lines)) = length (List.filter malformed lines).
Proof.
  induction lines as [|line lines [IH1 IH2]]; [split; reflexivity|].
  cbn [status_lines List.filter]. unfold well_formed, malformed, status_matches.
  destruct (status_lines lines) as [rows lg]. cbn [fst snd] in *.
  destruct (status_skipped line); cbn [negb andb fst snd]; [now split|].
  destruct (Re.rmatch true StatusRe.patt (Str.rstrip line));
    cbn [negb fst snd length]; rewrite IH1, IH2; now split.
Qed.

Lemma traffic_lines_skip (now : Z) (line : string) (pre post : list string) :
  traffic_ignored line = true ->
  forall cur, traffic_lines now cur (pre ++ line :: post) = traffic_lines now cur (pre ++ post).
Proof.
  unfold traffic_ignored. intros Hi.
  destruct (Re.rmatch false TrafficRe.hdr line) eqn:Hh; [discriminate|].
  destruct (Re.search false TrafficRe.last line) eqn:Hl; [discriminate|].
  induction pre as [|l pre IH]; intros cur; simpl.
  - rewrite Hh, Hl. now destruct (port_set cur).
  - destruct (Re.rmatch false TrafficRe.hdr l).
    { destruct (normalize_port_raises _); [reflexivity | apply IH]. }
    destruct (port_set cur); [|apply IH].
    destruct (Re.search false TrafficRe.last l); [|apply IH].
    now rewrite IH.
Qed.

(** C3, as stated, fails for the traffic-age parser: the line it cannot
    use is dropped without any diagnostic, and an age with a colon that is
    not [hh:mm:ss] makes the whole call raise. *)
Lemma traffic_parser_counterexample :
  parse_last_traffic some_now traffic_just_received
    = (Return [MkTrafficRow "Gi1/0/1" (At (some_now - 330))], []) /\
  parse_last_traffic some_now traffic_bad_age = (Raise ValueError, []).
Proof. split; vm_compute; reflexivity. Qed.

(** C3 (amended). For every text, [parse_if_status] has one row for each
    line that is not skipped as blank or header and that the pattern
    matches, and one DEBUG record for each line that is not skipped and
    that the pattern does not match.  Such an unmatched line, wherever it
    stands in the text, does not make the call raise, yields no row and one
    record, and leaves the rows and the records of the other lines as they
    are.  [parse_last_traffic] ignores a line that is neither a port header
    nor a [Last input] line, and records nothing. *)
Theorem parsers_skip_unmatched_lines (output bad : string) (pre post : list string) :
  Str.splitlines output = (pre ++ bad :: post)%list ->
  malformed bad = true ->
  parse_if_status_raises output = status_raises (pre ++ post) /\
  fst (parse_if_status output) = fst (status_lines (pre ++ post)) /\
  snd (parse_if_status output) =
    (snd (status_lines pre) ++
     (DEBUG, ("Unparsed status line: " ++ bad)%string) :: snd (status_lines post))%list /\
  (forall text,
     length (fst (parse_if_status text)) =
       length (List.filter well_formed (Str.splitlines text)) /\
     length (snd (parse_if_status text)) =
       length (List.filter malformed (Str.splitlines text))) /\
  (forall now text line before after,
     Str.splitlines text = (before ++ line :: after)%list ->
     traffic_ignored line = true ->
     fst (parse_last_traffic now text) = traffic_lines now None (before ++ after)) /\
  (forall now text, snd (parse_last_traffic now text) = []).
Proof.
  intros Hsplit Hbad. unfold parse_if_status_raises, parse_if_status. rewrite Hsplit.
  change (bad :: post) with ([bad] ++ post)%list.
  rewrite !status_lines_app, (status_lines_malformed bad Hbad).
  unfold status_raises. rewrite !existsb_app.
  fold (status_raises pre) (status_raises [bad]) (status_raises post).
  rewrite (status_raises_malformed bad Hbad). cbn [fst snd app orb].
  split_all; try reflexivity.
  - intros text. apply status_lines_count.
  - intros now text line before after Hs Hi. unfold parse_last_traffic. cbn [fst].
    rewrite Hs. now apply traffic_lines_skip.
Qed.

Lemma parsers_skip_unmatched_lines_witness :
  parse_if_status_raises status_ten_lines = false /\
  List.map st_port (fst (parse_if_status status_ten_lines))
    = [ "Gi1/0/1"; "Gi1/0/2"; "Gi1/0/3"; "Gi1/0/4"; "Gi1/0/5";
        "Gi1/0/7"; "Gi1/0/8"; "Te1/1/1"; "Te1/1/2" ] /\
  snd (parse_if_status status_ten_lines)
    = [(DEBUG, "Unparsed status line: Gi1/0/6   % output truncated")].
Proof.
  destruct (parsers_skip_unmatched_lines status_ten_lines status_damaged
              status_first_five status_last_four) as (Hr & Hrows & Hlog & _).
  - vm_compute. reflexivity.
  - vm_compute. reflexivity.
  - rewrite Hr, Hrows, Hlog. split_all; vm_compute; reflexivity.
Defined.

(** ** Rows of the merged snapshot (C1) *)

Lemma cell_eqb_eq (a b : cell) : cell_eqb a b = true -> a = b.
Proof.
  destruct a, b; simpl; try discriminate.
  - intros H. apply String.eqb_eq in H. now subst.
  - intros H. apply Z.eqb_eq in H. now subst.
Qed.

Lemma matches_at_most_one (key : string) (k : cell) (rows : list record) :
  NoDup (List.map (get key) rows) ->
  (length (List.filter (fun r => cell_eqb k (get key r)) rows) <= 1)%nat.
Proof.
  induction rows as [|r rows IH]; simpl; intros Hn; [lia|].
  apply NoDup_cons in Hn as [Hr Hn]. specialize (IH Hn).
  destruct (cell_eqb k (get key r)) eqn:He; [|exact IH].
  apply cell_eqb_eq in He. subst k. simpl.
  assert (Hz : List.filter (fun r0 => cell_eqb (get key r) (get key r0)) rows = []).
  { clear IH Hn. induction rows as [|x rows IHr]; simpl; [reflexivity|].
    destruct (cell_eqb (get key r) (get key x)) eqn:Hx.
    - exfalso. apply cell_eqb_eq in Hx. apply Hr. rewrite Hx. simpl. now left.
    - apply IHr. intros Hin. apply Hr. simpl. now right. }
  rewrite Hz. simpl. lia.
Qed.

(** When no key occurs twice in the right frame, the left join keeps the
    number of rows of the left frame. *)
Lemma merge_left_unique (key : string) (left right df : DataFrame) :
  NoDup (List.map (get key) (records right)) ->
  merge_left key left right = Return df ->
  length (records df) = length (records left).
Proof.
  unfold merge_left. intros Hn H.
  destruct (has_column key left && has_column key right); [|discriminate].
  injection H as <-. simpl.
  induction (records left) as [|l ls IH]; simpl; [reflexivity|].
  rewrite List.length_app, IH. f_equal.
  pose proof (matches_at_most_one key (get key l) (records right) Hn) as Hm.
  destruct (List.filter _ (records right)) as [|m [|m' ms]]; simpl in *; try lia.
Qed.

(** C1 at its failing inputs. The status table has one port. With two
    LLDP neighbours on that port the snapshot has two rows, and so it has
    when [show interfaces] lists a sub-interface of the port; with a
    single neighbour or none it has one. *)
Theorem merge_multiplies_rows :
  List.map st_port (fst (parse_if_status status_one_port)) = ["Gi1/0/1"] /\
  rows_of (fst (collect_switch_data no_service some_now "sw1" "10.0.0.2" "2026-11-03" ∅
                  status_one_port mac_one_entry lldp_two_neighbours
                  traffic_just_received (start_of_run []))) = Some 2%nat /\
  rows_of (fst (collect_switch_data no_service some_now "sw1" "10.0.0.2" "2026-11-03" ∅
                  status_one_port mac_one_entry [] traffic_subinterface
                  (start_of_run []))) = Some 2%nat /\
  rows_of (fst (collect_switch_data no_service some_now "sw1" "10.0.0.2" "2026-11-03" ∅
                  status_one_port mac_one_entry [] traffic_just_received
                  (start_of_run []))) = Some 1%nat.
Proof. split_all; vm_compute; reflexivity. Qed.

(** ** Further properties of the normalisers *)

(** X1. [normalize_port] ignores white space around the name, in what it
    returns and in whether it raises, and its result carries none. *)
Theorem normalize_port_trims (x : string) :
  normalize_port (Str.strip x) = normalize_port x /\
  normalize_port_raises (Str.strip x) = normalize_port_raises x /\
  Str.strip (normalize_port x) = normalize_port x.
Proof.
  split_all.
  - now rewrite !normalize_port_canonical, strip_fixed.
  - now rewrite !raises_refused, strip_fixed.
  - rewrite normalize_port_canonical.
    destruct (canonical_cases (replace_prefix PREFIX_MAP (Str.strip x)))
      as [(name & ds & Hn & _ & ->) | ->].
    + now apply strip_nonspace, render_nonspace.
    + apply replace_prefix_stripped, strip_fixed.
Qed.

Lemma rstrip_app_kept (a b r : string) (d : ascii) :
  Str.rstrip b = String d r -> Str.rstrip (a ++ b) = a ++ String d r.
Proof.
  intros Hb. induction a as [|c a IH]; simpl; [exact Hb|].
  rewrite IH. destruct a; reflexivity.
Qed.

Lemma rstrip_head (d : ascii) (s : string) :
  Chr.isspace d = false -> exists r, Str.rstrip (String d s) = String d r.
Proof.
  intros Hd. simpl. destruct (Str.rstrip s) as [|c r]; [rewrite Hd|]; eauto.
Qed.

(** The two spellings of a port, once trimmed and substituted. *)
Lemma prefix_substituted (long short rest r : string) (d : ascii) :
  In (long, short) PREFIX_MAP ->
  Chr.isdigit d = true ->
  replace_prefix PREFIX_MAP (long ++ String d r) = short ++ String d r /\
  replace_prefix PREFIX_MAP (short ++ String d r) = short ++ String d r /\
  Str.lstrip (long ++ rest) = long ++ rest /\
  Str.lstrip (short ++ rest) = short ++ rest.
Proof.
  intros Hin Hd. unfold PREFIX_MAP in Hin. simpl in Hin.
  repeat (destruct Hin as [Hin | Hin];
          [ injection Hin as <- <-;
            split_all; try reflexivity;
            destruct d as [[] [] [] [] [] [] [] []];
            try (vm_compute in Hd; discriminate Hd); reflexivity
          | ]).
  contradiction.
Qed.

(** X2. A verbose interface name and its short code give the same
    canonical id when a digit follows the prefix. *)
Theorem verbose_and_short_agree (long short rest : string) :
  In (long, short) PREFIX_MAP ->
  starts_in Chr.isdigit rest = true ->
  normalize_port (long ++ rest) = normalize_port (short ++ rest).
Proof.
  intros Hin Hr. destruct rest as [|d rest]; [discriminate|]. simpl in Hr.
  destruct (rstrip_head d rest (digit_nonspace d Hr)) as [r Hrs].
  rewrite !normalize_port_canonical. unfold Str.strip.
  destruct (prefix_substituted long short (String d rest) r d Hin Hr)
    as (Hl & Hs & Ll & Ls).
  rewrite Ll, Ls, !(rstrip_app_kept _ _ _ _ Hrs), Hl, Hs. reflexivity.
Qed.

Lemma verbose_and_short_agree_witness :
  normalize_port "TenGigabitEthernet1/0/24 " = normalize_port "Te1/0/24 ".
Proof.
  apply (verbose_and_short_agree "TenGigabitEthernet" "Te" "1/0/24 ").
  - unfold PREFIX_MAP. simpl. tauto.
  - reflexivity.
Defined.

Lemma lower_dot_iff (c : ascii) : Ascii.eqb (Chr.lower c) "." = Ascii.eqb c ".".
Proof. destruct c as [[] [] [] [] [] [] [] []]; reflexivity. Qed.

Lemma remove_dot_lower (m : string) :
  Str.remove "." (Str.lower m) = Str.lower (Str.remove "." m).
Proof.
  unfold Str.lower. induction m as [|c m IH]; simpl; [reflexivity|].
  rewrite lower_dot_iff. destruct (Ascii.eqb c "."); simpl; now rewrite IH.
Qed.

Lemma lower_idem (s : string) : Str.lower (Str.lower s) = Str.lower s.
Proof.
  unfold Str.lower. induction s as [|c s IH]; simpl; [reflexivity|].
  now rewrite lower_lower, IH.
Qed.

(** X3. [normalize_mac] does not depend on the case of its input, and its
    result has no dot and no upper-case character. *)
Theorem normalize_mac_case_insensitive (m : string) :
  normalize_mac (Str.lower m) = normalize_mac m /\
  Str.remove "." (normalize_mac m) = normalize_mac m /\
  Str.lower (normalize_mac m) = normalize_mac m.
Proof.
  split.
  - now rewrite !normalize_mac_rejoin, remove_dot_lower, lower_idem.
  - rewrite normalize_mac_rejoin. apply plain_rejoin, plain_lower_remove.
Qed.

Lemma hex_lower_not_colon (c : ascii) :
  ishex c = true -> Ascii.eqb (Chr.lower c) ":" = false.
Proof. all_chars c. Qed.

Lemma split_colon_octets (o : octet) (octs : list octet) :
  Forall (fun o => hex_octet o = true) (o :: octs) ->
  Str.split ":" (spelled ":" (List.map lower_octet (o :: octs)))
  = List.map octet_str (List.map lower_octet (o :: octs)).
Proof.
  revert o. induction octs as [|o' octs IH]; intros o Ho.
  - inversion Ho as [|? ? H1 _]; subst. unfold hex_octet in H1.
    apply andb_prop in H1 as [Ha Hb]. cbn.
    now rewrite (hex_lower_not_colon _ Ha), (hex_lower_not_colon _ Hb).
  - inversion Ho as [|? ? H1 H2]; subst. specialize (IH o' H2).
    unfold hex_octet in H1. apply andb_prop in H1 as [Ha Hb].
    change (spelled ":" (List.map lower_octet (o :: o' :: octs)))
      with (String (Chr.lower (fst o)) (String (Chr.lower (snd o))
              (String ":" (spelled ":" (List.map lower_octet (o' :: octs)))))).
    cbn [Str.split]. rewrite (hex_lower_not_colon _ Ha), (hex_lower_not_colon _ Hb).
    rewrite Ascii.eqb_refl, IH. reflexivity.
Qed.

(** X4. The OUI of a normalised address is its first three octets, in
    lower case and joined by colons. *)
Theorem oui_of_normalized (octs : list octet) (raw : string) :
  Forall (fun o => hex_octet o = true) octs ->
  Str.remove "." raw = spelled "" octs ->
  oui_of (normalize_mac raw) = spelled ":" (List.map lower_octet (firstn 3 octs)).
Proof.
  intros Hh Hr. rewrite normalize_mac_rejoin, Hr, lower_bare, rejoin_bare.
  unfold oui_of. destruct octs as [|o octs]; [reflexivity|].
  rewrite (split_colon_octets o octs Hh). unfold spelled.
  now rewrite <- !List.firstn_map.
Qed.

Lemma oui_of_normalized_witness :
  oui_of (normalize_mac "AABB.CCDD.EEFF") = "aa:bb:cc".
Proof.
  apply (oui_of_normalized
           [("A", "A"); ("B", "B"); ("C", "C"); ("D", "D"); ("E", "E"); ("F", "F")]%char
           "AABB.CCDD.EEFF").
  - repeat constructor.
  - reflexivity.
Defined.

(** ** Further properties of the vendor cache *)

Lemma insert_is_Some (d : gmap string string) (o v oui : string) :
  is_Some (<[o := v]> d !! oui) <-> is_Some (d !! oui) \/ String.eqb oui o = true.
Proof.
  destruct (String.eqb oui o) eqn:He.
  - apply String.eqb_eq in He. subst. rewrite lookup_insert_eq. split; eauto.
  - assert (o <> oui) by (intros ->; rewrite String.eqb_refl in He; discriminate).
    rewrite lookup_insert_ne by assumption.
    split; [auto | intros [H' | H']; [exact H' | discriminate]].
Qed.

Lemma get_vendor_asked_once (api : service) (mac : string) (w : world) :
  asked_once w -> asked_once (snd (get_vendor api mac w)).
Proof.
  intros [Hn Hd]. destruct (oui_dict w !! oui_of mac) as [v|] eqn:Hl.
  - now rewrite (get_vendor_hit api mac v w Hl).
  - destruct (get_vendor_miss api mac w Hl) as (v & -> & _). split; simpl.
    + apply NoDup_cons_2; [|exact Hn].
      intros Hin. apply list_elem_of_In, in_map_iff in Hin as (m & He & Hm).
      destruct (Hd m Hm) as [x Hx]. congruence.
    + intros m [<- | Hm]; apply insert_is_Some.
      * right. apply String.eqb_refl.
      * left. now apply Hd.
Qed.

(** X5. In a run the lookup service is asked at most once per OUI,
    whatever it answers, whatever the persisted file holds and in whatever
    order addresses are resolved. *)
Theorem one_request_per_oui (file : list (string * string))
    (steps : list (service * string)) :
  NoDup (List.map oui_of (requests (resolve_all steps (start_of_run file)))).
Proof.
  assert (H : forall w, asked_once w -> asked_once (resolve_all steps w)).
  { induction steps as [|[api mac] steps IH]; simpl; intros w Hw; [exact Hw|].
    apply IH, get_vendor_asked_once, Hw. }
  apply (H (start_of_run file)). split; simpl; [constructor | intros m []].
Qed.



(** ** The vendor column of the MAC table *)

Lemma get_vendor_keeps_entry (api : service) (mac k v : string) (w : world) :
  oui_dict w !! k = Some v -> oui_dict (snd (get_vendor api mac w)) !! k = Some v.
Proof.
  intros Hk. destruct (oui_dict w !! oui_of mac) as [x|] eqn:Hl.
  - now rewrite (get_vendor_hit api mac x w Hl).
  - destruct (get_vendor_miss api mac w Hl) as (x & -> & _). simpl.
    rewrite lookup_insert_ne; [exact Hk | congruence].
Qed.

Lemma get_vendor_returns_entry (api : service) (mac : string) (w : world) :
  oui_dict (snd (get_vendor api mac w)) !! oui_of mac = Some (fst (get_vendor api mac w)).
Proof.
  destruct (oui_dict w !! oui_of mac) as [x|] eqn:Hl.
  - now rewrite (get_vendor_hit api mac x w Hl).
  - destruct (get_vendor_miss api mac w Hl) as (x & -> & _). simpl.
    apply lookup_insert_eq.
Qed.

Lemma mac_rows_keeps_entry (api : service) (ms : list Re.groups) (k v : string) (w : world) :
  oui_dict w !! k = Some v -> oui_dict (snd (mac_rows api ms w)) !! k = Some v.
Proof.
  revert w. induction ms as [|m ms IH]; simpl; intros w Hk; [exact Hk|].
  pose proof (get_vendor_keeps_entry api (normalize_mac (Re.group 2 m)) k v w Hk) as H1.
  destruct (get_vendor api (normalize_mac (Re.group 2 m)) w) as [x w1]. simpl in H1.
  specialize (IH w1 H1). destruct (mac_rows api ms w1) as [rows w2]. exact IH.
Qed.

Lemma mac_rows_vendor (api : service) (ms : list Re.groups) (w : world) (r : MacRow) :
  In r (fst (mac_rows api ms w)) ->
  oui_dict (snd (mac_rows api ms w)) !! oui_of (mac_address r) = Some (vendor r).
Proof.
  revert w. induction ms as [|m ms IH]; simpl; intros w Hr; [contradiction|].
  pose proof (get_vendor_returns_entry api (normalize_mac (Re.group 2 m)) w) as H1.
  destruct (get_vendor api (normalize_mac (Re.group 2 m)) w) as [x w1]. simpl in H1.
  pose proof (mac_rows_keeps_entry api ms _ _ w1 H1) as H2.
  specialize (IH w1). destruct (mac_rows api ms w1) as [rows w2]. simpl in *.
  destruct Hr as [<- | Hr]; [exact H2 | now apply IH].
Qed.

Lemma drop_duplicates_subset {A : Type} (key : A -> string) (seen : list string)
    (rows : list A) (r : A) :
  In r (drop_duplicates key seen rows) -> In r rows.
Proof.
  revert seen. induction rows as [|x rows IH]; simpl; intros seen H; [exact H|].
  destruct (existsb (String.eqb (key x)) seen); [right; eauto|].
  destruct H as [-> | H]; [now left | right; eauto].
Qed.

(** X7. Every row that [parse_mac_table] returns has a normalised
    address and port, and its vendor is the one the dictionary holds for
    its OUI when the call returns; the call changes no entry that the
    dictionary had. *)
Theorem parse_mac_table_rows (api : service) (output : string) (w : world) :
  let rows := fst (parse_mac_table api output w) in
  let w' := snd (parse_mac_table api output w) in
  (forall r, In r rows ->
     oui_dict w' !! oui_of (mac_address r) = Some (vendor r) /\
     Str.lower (mac_address r) = mac_address r /\
     Str.remove "." (mac_address r) = mac_address r /\
     Str.strip (mac_port r) = mac_port r) /\
  (forall k v, oui_dict w !! k = Some v -> oui_dict w' !! k = Some v).
Proof.
  intros rows w'.
  assert (Hr : rows = drop_duplicates mac_port []
                 (fst (mac_rows api (Re.finditer true MacRe.patt output) w)) /\
               w' = snd (mac_rows api (Re.finditer true MacRe.patt output) w)).
  { unfold rows, w', parse_mac_table.
    now destruct (mac_rows api (Re.finditer true MacRe.patt output) w). }
  destruct Hr as [-> ->]. split_all.
  - intros r Hin. apply drop_duplicates_subset in Hin.
    split; [now apply mac_rows_vendor|].
    assert (Hshape : exists m, mac_address r = normalize_mac (Re.group 2 m) /\
                               mac_port r = normalize_port (Re.group 3 m)).
    { clear -Hin. revert w Hin.
      induction (Re.finditer true MacRe.patt output) as [|m ms IH]; simpl; intros w Hin;
        [contradiction|].
      destruct (get_vendor api (normalize_mac (Re.group 2 m)) w) as [x w1].
      specialize (IH w1). destruct (mac_rows api ms w1) as [rs w2]. simpl in *.
      destruct Hin as [<- | Hin]; [exists m; auto | now apply IH]. }
    destruct Hshape as (m & -> & ->).
    pose proof (plain_rejoin _ (plain_lower_remove (Re.group 2 m))) as [P1 P2].
    rewrite <- normalize_mac_rejoin in P1, P2.
    split_all; [exact P2 | exact P1 |].
    rewrite normalize_port_canonical.
    destruct (canonical_cases (replace_prefix PREFIX_MAP (Str.strip (Re.group 3 m))))
      as [(name & ds & Hn & _ & ->) | ->].
    + now apply strip_nonspace, render_nonspace.
    + apply replace_prefix_stripped, strip_fixed.
  - intros k v. apply mac_rows_keeps_entry.
Qed.

(** ** Further properties of the line parsers *)

Lemma traffic_lines_bounded (now : Z) (lines : list string) :
  forall cur rows,
    traffic_lines now cur lines = Return rows ->
    (length rows <= length (List.filter is_header lines)
                    + match port_set cur with Some _ => 1 | None => 0 end)%nat.
Proof.
  unfold is_header.
  induction lines as [|line lines IH]; intros cur rows H; simpl in *.
  - injection H as <-. simpl. lia.
  - destruct (Re.rmatch false TrafficRe.hdr line) as [m|].
    + destruct (normalize_port_raises (Re.group 1 m)); [discriminate|].
      apply IH in H. simpl. destruct (port_set (Some _)), (port_set cur); simpl in *; lia.
    + destruct (port_set cur) as [port|] eqn:Hp; [|apply IH in H; rewrite Hp in H; exact H].
      destruct (Re.search false TrafficRe.last line) as [ml|];
        [|apply IH in H; rewrite Hp in H; exact H].
      destruct (_age_to_timedelta (Re.group 1 ml)); [|discriminate].
      destruct (_age_to_timedelta (Re.group 2 ml)); [|discriminate].
      simpl in H. destruct (traffic_stamp now a a0); [|discriminate].
      simpl in H. destruct (traffic_lines now None lines) as [rs|] eqn:Hr; [|discriminate].
      injection H as <-. apply IH in Hr. simpl in *. lia.
Qed.

(** X8. [parse_last_traffic] returns at most one row per port header of
    the text; a [Last input] line that no header precedes yields none. *)
Theorem parse_last_traffic_bounded (now : Z) (output : string) (rows : list TrafficRow) :
  fst (parse_last_traffic now output) = Return rows ->
  (length rows <= length (List.filter is_header (Str.splitlines output)))%nat.
Proof.
  unfold parse_last_traffic. simpl. intros H.
  apply traffic_lines_bounded in H. simpl in H. lia.
Qed.

Lemma parse_last_traffic_bounded_witness :
  (length [MkTrafficRow "Gi1/0/1" (At (some_now - 330))]
   <= length (List.filter is_header (Str.splitlines traffic_just_received)))%nat.
Proof.
  apply (parse_last_traffic_bounded some_now traffic_just_received).
  vm_compute. reflexivity.
Defined.

(** ** Further properties of the age parser *)



(** A digit in front of a decimal numeral. *)
Lemma uint_of_digit (c : ascii) (d : Decimal.uint) :
  Chr.isdigit c = true ->
  exists d', uint_of_char c (Some d) = Some d' /\
             Pos.of_uint d' = ((Chr.code c - 48) * 10 ^ DecimalPos.Unsigned.usize d + Pos.of_uint d)%N /\
             DecimalPos.Unsigned.usize d' = N.succ (DecimalPos.Unsigned.usize d).
Proof.
  intros Hc.
  destruct c as [[] [] [] [] [] [] [] []]; try (vm_compute in Hc; discriminate Hc);
    (eexists; split; [reflexivity|]; split; [|reflexivity]);
    rewrite !DecimalPos.Unsigned.of_uint_alt; unfold Decimal.rev; cbn [Decimal.revapp];
    rewrite DecimalPos.Unsigned.of_lu_revapp; unfold Decimal.rev;
    match goal with
    | |- (_ + ?x * _ = ?y * _ + _)%N =>
        let x' := eval vm_compute in x in
        let y' := eval vm_compute in y in
        change x with x'; change y with y'
    end; lia.
Qed.

Lemma uint_of_digits (s : string) :
  Str.forallb Chr.isdigit s = true ->
  exists d, NilEmpty.uint_of_string s = Some d /\
            DecimalPos.Unsigned.usize d = N.of_nat (String.length s).
Proof.
  induction s as [|c s IH]; simpl; intros H; [exists Decimal.Nil; auto|].
  apply andb_prop in H as [Hc Hs]. destruct (IH Hs) as (d & Hd & Hu).
  destruct (uint_of_digit c d Hc) as (d' & Hd' & _ & Hu').
  exists d'. rewrite Hd. split; [exact Hd'|]. rewrite Hu', Hu. lia.
Qed.

(** The value of a digit string, one digit at a time. *)
Lemma field_cons (c : ascii) (s : string) :
  Chr.isdigit c = true -> Str.forallb Chr.isdigit s = true ->
  field (String c s)
  = ((Z.of_N (Chr.code c) - 48) * 10 ^ Z.of_nat (String.length s) + field s)%Z.
Proof.
  intros Hc Hs. unfold field, int_of_digits.
  destruct (uint_of_digits s Hs) as (d & Hd & Hu).
  destruct (uint_of_digit c d Hc) as (d' & Hd' & Hv & _).
  cbn [NilZero.uint_of_string NilEmpty.uint_of_string]. rewrite Hd, Hd'.
  unfold N.of_uint. rewrite Hv, Hu.
  assert (H48 : (48 <= Chr.code c)%N).
  { unfold Chr.isdigit, Chr.between in Hc. apply andb_prop in Hc as [Hc _].
    now apply N.leb_le. }
  assert (Hval : Z.of_N (Pos.of_uint d) =
                 match NilZero.uint_of_string s with
                 | Some d0 => Z.of_N (Pos.of_uint d0) | None => 0%Z end).
  { destruct s as [|x s]; [simpl in Hd; injection Hd as <-; reflexivity|].
    cbn [NilZero.uint_of_string]. now rewrite Hd. }
  rewrite N2Z.inj_add, N2Z.inj_mul, N2Z.inj_pow, N2Z.inj_sub by exact H48.
  rewrite nat_N_Z. change (Z.of_N 10) with 10%Z. change (Z.of_N 48) with 48%Z.
  rewrite Hval. destruct (NilZero.uint_of_string s); reflexivity.
Qed.

Lemma int_body_digits (s : string) (acc : Z) :
  Str.forallb Chr.isdigit s = true ->
  int_body true acc s = Some (acc * 10 ^ Z.of_nat (String.length s) + field s)%Z.
Proof.
  revert acc. induction s as [|c s IH]; intros acc H.
  - simpl. f_equal. unfold field, int_of_digits. simpl. lia.
  - simpl in H. apply andb_prop in H as [Hc Hs].
    cbn [int_body]. rewrite Hc, (IH _ Hs), (field_cons c s Hc Hs).
    f_equal. cbn [String.length]. rewrite Nat2Z.inj_succ, Z.pow_succ_r by lia. lia.
Qed.

Lemma ltrim_fixed (p : ascii -> bool) (s : string) :
  starts_in p s = false -> Str.ltrim p s = s.
Proof. destruct s as [|c s]; simpl; [reflexivity | now intros ->]. Qed.

Lemma rtrim_outside (p q : ascii -> bool) (s : string) :
  (forall c, q c = true -> p c = false) ->
  Str.forallb q s = true -> Str.rtrim p s = s.
Proof.
  intros Hq. induction s as [|c s IH]; simpl; [reflexivity|]. intros H.
  apply andb_prop in H as [Hc Hs]. rewrite (IH Hs), (Hq c Hc). now destruct s.
Qed.

Lemma digit_not_intspace (c : ascii) : Chr.isdigit c = true -> Chr.isintspace c = false.
Proof. all_chars c. Qed.

Lemma count_digits (s : string) :
  Str.forallb Chr.isdigit s = true -> Str.count Chr.isdigit s = String.length s.
Proof.
  induction s as [|c s IH]; simpl; [reflexivity|]. intros H.
  apply andb_prop in H as [Hc Hs]. now rewrite Hc, (IH Hs).
Qed.

(** On a field of digits, [int] is the decimal value, unless the field is
    longer than the interpreter accepts. *)
Lemma py_int_digits (d : string) :
  word Chr.isdigit d = true ->
  py_int d = if int_refuses d then Raise ValueError else Return (field d).
Proof.
  unfold word. intros H. apply andb_prop in H as [Hne Hd].
  unfold py_int. rewrite ltrim_fixed, (rtrim_outside _ Chr.isdigit _ digit_not_intspace Hd).
  2:{ destruct d as [|c d]; [discriminate|]. simpl in *. now apply digit_not_intspace. }
  destruct d as [|c d]; [discriminate|]. simpl in Hne. pose proof Hd as Hd0.
  simpl in Hd. apply andb_prop in Hd as [Hc Hd'].
  assert (Hb : int_body false 0 (String c d) = Some (field (String c d))).
  { cbn [int_body]. rewrite Hc, (int_body_digits d _ Hd'), (field_cons c d Hc Hd').
    f_equal; lia. }
  unfold int_refuses. rewrite <- (count_digits _ Hd0).
  destruct c as [[] [] [] [] [] [] [] []]; try (vm_compute in Hc; discriminate Hc);
    cbv beta iota zeta; rewrite Hb;
    (destruct (over_limit _); [reflexivity | f_equal; lia]).
Qed.

Lemma split_digits (s : string) :
  Str.forallb Chr.isdigit s = true -> Str.split ":" s = [s].
Proof.
  induction s as [|c s IH]; simpl; intros H; [reflexivity|].
  apply andb_prop in H as [Hc Hs]. now rewrite (digit_not_colon c Hc), (IH Hs).
Qed.

Lemma split_digits_colon (h rest : string) :
  Str.forallb Chr.isdigit h = true ->
  Str.split ":" (h ++ String ":" rest) = h :: Str.split ":" rest.
Proof.
  induction h as [|c h IH]; simpl; intros H; [reflexivity|].
  apply andb_prop in H as [Hc Hs]. now rewrite (digit_not_colon c Hc), (IH Hs).
Qed.

Lemma contains_app_colon (h rest : string) : contains ":" (h ++ String ":" rest) = true.
Proof.
  induction h as [|c h IH]; simpl; [reflexivity|]. rewrite IH. apply orb_true_r.
Qed.

Lemma digit_first_not_never (c : ascii) (s : string) :
  Chr.isdigit c = true -> String.eqb (Str.lower (String c s)) "never" = false.
Proof.
  intros Hc. unfold Str.lower. cbn [Str.map].
  destruct c as [[] [] [] [] [] [] [] []]; try (vm_compute in Hc; discriminate Hc);
    reflexivity.
Qed.

Lemma field_nonneg (d : string) : (0 <= field d)%Z.
Proof. unfold field. lia. Qed.

(** X9. An age of the form [h:m:s], each field a string of decimal
    digits (leading zeros allowed), is the duration of 3600 h + 60 m + s
    seconds; the call raises [ValueError] when a field has more digits than
    [int] accepts, and [OverflowError] when the duration exceeds what a
    [timedelta] can hold. *)
Theorem age_hms_value (h m s : string) :
  word Chr.isdigit h = true ->
  word Chr.isdigit m = true ->
  word Chr.isdigit s = true ->
  let total := (3600 * field h + 60 * field m + field s)%Z in
  _age_to_timedelta (h ++ ":" ++ m ++ ":" ++ s)
  = if int_refuses h || int_refuses m || int_refuses s then Raise ValueError
    else if (total <=? 86399999999999)%Z then Return (Some total)
    else Raise OverflowError.
Proof.
  intros Hh Hm Hs total.
  pose proof Hh as Hh'. pose proof Hm as Hm'. pose proof Hs as Hs'.
  unfold word in Hh', Hm', Hs'.
  apply andb_prop in Hh' as [Nh Fh]. apply andb_prop in Hm' as [_ Fm].
  apply andb_prop in Hs' as [_ Fs].
  unfold _age_to_timedelta.
  change (h ++ ":" ++ m ++ ":" ++ s) with (h ++ String ":" (m ++ String ":" s)).
  destruct h as [|c h]; [discriminate|]. simpl in Nh.
  change (String c h ++ String ":" (m ++ String ":" s))
    with (String c (h ++ String ":" (m ++ String ":" s))).
  rewrite (digit_first_not_never c _ Nh).
  change (String c (h ++ String ":" (m ++ String ":" s)))
    with (String c h ++ String ":" (m ++ String ":" s)).
  rewrite contains_app_colon, (split_digits_colon _ _ Fh), (split_digits_colon _ _ Fm),
    (split_digits _ Fs).
  unfold unpack_hms. rewrite (py_int_digits _ Hh), (py_int_digits _ Hm), (py_int_digits _ Hs).
  destruct (int_refuses (String c h)); [reflexivity|].
  destruct (int_refuses m); [reflexivity|].
  destruct (int_refuses s); [reflexivity|].
  cbn [bind orb]. fold total. unfold timedelta.
  pose proof (field_nonneg (String c h)). pose proof (field_nonneg m).
  pose proof (field_nonneg s).
  replace (-86399999913600 <=? total)%Z with true by (symmetry; apply Z.leb_le; lia).
  cbn [andb]. destruct (total <=? 86399999999999)%Z; reflexivity.
Qed.

Lemma age_hms_value_witness :
  _age_to_timedelta "01:02:03" = Return (Some 3723%Z).
Proof.
  apply (age_hms_value "01" "02" "03"); reflexivity.
Defined.

(** X10. An age that contains a colon and is not the token [never] raises
    [ValueError] unless it has exactly three fields. *)
Theorem age_colon_fields (text : string) :
  String.eqb (Str.lower text) "never" = false ->
  contains ":" text = true ->
  length (Str.split ":" text) <> 3%nat ->
  _age_to_timedelta text = Raise ValueError.
Proof.
  intros Hn Hc Hl. unfold _age_to_timedelta. rewrite Hn, Hc.
  destruct (Str.split ":" text) as [|a [|b [|c [|d l]]]]; simpl in *;
    try reflexivity; try (exfalso; now apply Hl).
Qed.

Lemma age_colon_fields_witness : _age_to_timedelta "1:02" = Raise ValueError.
Proof.
  apply age_colon_fields.
  - reflexivity.
  - reflexivity.
  - vm_compute. lia.
Defined.

Lemma unit_seconds_nonneg (u : string) : (0 <= unit_seconds u)%Z.
Proof.
  unfold unit_seconds.
  repeat match goal with
         | |- context [match ?x with _ => _ end] => destruct x
         end; lia.
Qed.

Lemma sum_nonneg (ms : list Re.groups) (acc : result Z) (total : Z) :
  (forall a, acc = Return a -> (0 <= a)%Z) ->
  fold_left
    (fun acc m =>
       bind acc (fun total =>
       bind (int_of_capture (Re.group 1 m)) (fun num =>
       Return (total + Z.of_N num * unit_seconds (Re.group 2 m))%Z)))
    ms acc = Return total ->
  (0 <= total)%Z.
Proof.
  revert acc. induction ms as [|m ms IH]; simpl; intros acc Ha H; [now apply Ha|].
  refine (IH _ _ H). intros a Hr.
  destruct acc as [t|]; [|discriminate]. cbn [bind] in Hr.
  unfold int_of_capture in Hr. destruct (int_refuses _); [discriminate|].
  cbn [bind] in Hr. injection Hr as <-.
  pose proof (unit_seconds_nonneg (Re.group 2 m)). specialize (Ha t eq_refl).
  assert (0 <= Z.of_N (int_of_digits (Re.group 1 m)))%Z by lia. nia.
Qed.

Lemma no_token (bos : bool) (s : string) :
  Str.forallb (fun c => negb (Chr.isdigit c)) s = true ->
  Re.finditer_from false AgeRe.token bos 0 s = [].
Proof.
  assert (Hm : forall b t, starts_in Chr.isdigit t = false ->
                           Re.match_at false AgeRe.token b t = None).
  { intros b t Ht. unfold Re.match_at, AgeRe.token.
    rewrite run_group_plus_nil; [reflexivity|].
    destruct t as [|c t]; simpl in *; [reflexivity|]. now rewrite cls_false. }
  revert bos. induction s as [|c s IH]; intros bos H.
  - cbn [Re.finditer_from]. now rewrite Hm.
  - simpl in H. apply andb_prop in H as [Hc Hs]. apply negb_true_iff in Hc.
    cbn [Re.finditer_from]. rewrite (Hm bos (String c s) Hc). apply IH, Hs.
Qed.

(** X11. On a text without a colon, [_age_to_timedelta] returns no
    duration or a strictly positive one, never zero; a text without a digit
    gives no duration. *)
Theorem age_units_positive (text : string) :
  contains ":" text = false ->
  (forall z, _age_to_timedelta text = Return (Some z) -> (0 < z)%Z) /\
  (Str.forallb (fun c => negb (Chr.isdigit c)) text = true ->
   _age_to_timedelta text = Return None).
Proof.
  intros Hc. unfold _age_to_timedelta. rewrite Hc.
  destruct (String.eqb (Str.lower text) "never"); [split; [discriminate | reflexivity]|].
  split.
  - intros z.
    destruct (fold_left _ (Re.finditer false AgeRe.token text) (Return 0%Z))
      as [total|] eqn:Hf; [|discriminate].
    apply sum_nonneg in Hf; [|intros a Ha; injection Ha as <-; lia].
    cbn [bind]. destruct (total =? 0)%Z eqn:Hz; [discriminate|]. apply Z.eqb_neq in Hz.
    unfold timedelta. destruct (_ && _); [|discriminate].
    cbn [bind]. intros H. injection H as <-. lia.
  - intros Hd. unfold Re.finditer. now rewrite (no_token true text Hd).
Qed.

Lemma age_units_positive_witness : _age_to_timedelta "soon" = Return None.
Proof.
  apply (age_units_positive "soon"); reflexivity.
Defined.

(** ** Further properties of the merge *)

Lemma get_app_l (col : string) (l x : record) :
  In col (List.map fst l) -> get col (l ++ x)%list = get col l.
Proof.
  induction l as [|[k v] l IH]; simpl; [contradiction|]. intros [-> | H].
  - now rewrite String.eqb_refl.
  - destruct (String.eqb k col); [reflexivity | auto].
Qed.

Lemma get_set_same (col : string) (v : cell) (r : record) : get col (set col v r) = v.
Proof.
  induction r as [|[k x] r IH]; simpl; [now rewrite String.eqb_refl|].
  destruct (String.eqb k col) eqn:He; simpl; now rewrite He.
Qed.

Lemma set_keeps_key (col c : string) (v : cell) (r : record) :
  In c (List.map fst r) -> In c (List.map fst (set col v r)).
Proof.
  induction r as [|[k x] r IH]; simpl; [contradiction|].
  destruct (String.eqb k col); simpl; tauto.
Qed.

(** The rows a left row gives in [merge_left]. *)
Lemma merge_left_records (key : string) (left right df : DataFrame) :
  merge_left key left right = Return df ->
  exists join : record -> list record,
    records df = flat_map join (records left) /\
    forall l, join l <> [] /\ forall x, In x (join l) -> exists y, x = (l ++ y)%list.
Proof.
  unfold merge_left. intros H.
  destruct (has_column key left && has_column key right); [|discriminate].
  injection H as <-. eexists. split; [reflexivity|]. intros l. cbv beta.
  destruct (List.filter _ (records right)) as [|m ms].
  - split; [discriminate|]. intros x [<- | []]. eauto.
  - split; [discriminate|]. intros x [<- | Hx]; [eauto|].
    apply in_map_iff in Hx as (r & <- & _). eauto.
Qed.

(** A left join keeps the keys of the left frame: each of them, and
    nothing else, at least once. *)
Lemma merge_left_keys (key : string) (left right df : DataFrame) :
  merge_left key left right = Return df ->
  Forall (fun l => In key (List.map fst l)) (records left) ->
  Forall (fun x => In key (List.map fst x)) (records df) /\
  (forall c, In c (List.map (get key) (records df)) <->
             In c (List.map (get key) (records left))) /\
  (length (records left) <= length (records df))%nat.
Proof.
  intros Hm Hk. destruct (merge_left_records key left right df Hm) as (join & -> & Hj).
  clear Hm. induction (records left) as [|l ls IH]; simpl.
  - split_all; [constructor | tauto | lia].
  - inversion Hk as [|? ? Hl Hls]; subst. destruct (IH Hls) as (I1 & I2 & I3).
    destruct (Hj l) as [Hne Hx]. split_all.
    + apply Forall_app. split; [|exact I1]. apply List.Forall_forall. intros x Hin.
      destruct (Hx x Hin) as [y ->]. rewrite List.map_app. apply in_or_app. now left.
    + intros c. rewrite List.map_app, in_app_iff, I2. split.
      * intros [H | H]; [left | now right].
        apply in_map_iff in H as (x & <- & Hin). destruct (Hx x Hin) as [y ->].
        symmetry. now apply get_app_l.
      * intros [<- | H]; [left | now right].
        destruct (join l) as [|x xs] eqn:Hjl; [contradiction|].
        destruct (Hx x (or_introl eq_refl)) as [y ->]. simpl. left. now apply get_app_l.
    + rewrite List.length_app. destruct (join l); [contradiction | simpl; lia].
Qed.

Lemma renormalize_status (srows : list StatusRow) :
  srows <> [] ->
  Forall (fun l => In "port" (List.map fst l))
         (records (renormalize (frame_of (List.map status_dict srows)))) /\
  List.map (get "port") (records (renormalize (frame_of (List.map status_dict srows))))
  = List.map (fun r => Text (normalize_port (st_port r))) srows.
Proof.
  intros Hne. destruct srows as [|s0 srows]; [contradiction|].
  assert (He : frame_empty (frame_of (List.map status_dict (s0 :: srows))) = false)
    by reflexivity.
  unfold renormalize. rewrite He. unfold frame_of. cbn [records].
  set (rows := s0 :: srows). clearbody rows. split.
  - apply List.Forall_forall. intros l Hl. apply in_map_iff in Hl as (x & <- & Hx).
    apply in_map_iff in Hx as (s & <- & _). simpl. now left.
  - rewrite !List.map_map. apply List.map_ext. intros s. reflexivity.
Qed.

Lemma get_map (c : string) (f : string * cell -> string * cell) (r : record) :
  (forall kv, fst (f kv) = fst kv) ->
  (forall kv, fst kv = c -> snd (f kv) = snd kv) ->
  get c (List.map f r) = get c r.
Proof.
  intros Hf Hs. induction r as [|[k v] r IH]; [reflexivity|].
  cbn [List.map get]. specialize (Hf (k, v)). specialize (Hs (k, v)).
  destruct (f (k, v)) as [k' v']. cbn [fst snd] in *. subst k'.
  destruct (String.eqb k c) eqn:He; [|exact IH].
  apply String.eqb_eq in He. now apply Hs.
Qed.

Lemma fill_blanks_keys (r : record) : List.map fst (fill_blanks r) = List.map fst r.
Proof.
  unfold fill_blanks. rewrite List.map_map. apply List.map_ext. intros [k v].
  cbn [fst snd]. destruct v; try reflexivity. now destruct (existsb _ text_cols).
Qed.

Lemma get_fill_blanks (r : record) : get "port" (fill_blanks r) = get "port" r.
Proof.
  unfold fill_blanks. apply get_map.
  - intros [k v]. cbn [fst snd]. destruct v; try reflexivity.
    now destruct (existsb _ text_cols).
  - intros [k v] Hk. cbn [fst snd] in *. subst k. now destruct v.
Qed.

Lemma get_set_other (col c : string) (v : cell) (r : record) :
  String.eqb col c = false -> get c (set col v r) = get c r.
Proof.
  intros Hc. induction r as [|[k x] r IH]; simpl.
  - now rewrite Hc.
  - destruct (String.eqb k col) eqn:He; simpl.
    + apply String.eqb_eq in He. subst. now rewrite Hc.
    + destruct (String.eqb k c); [reflexivity | exact IH].
Qed.

Lemma get_finish (arp_map : gmap string string) (r : record) :
  In "port" (List.map fst r) ->
  get "port" (resolve_ip arp_map (default_vendor (fill_blanks r))) = get "port" r.
Proof.
  intros Hk. unfold resolve_ip. rewrite get_app_l.
  - unfold default_vendor.
    destruct (get "vendor" (fill_blanks r)) as [[|]| |]; try apply get_fill_blanks.
    rewrite get_set_other by reflexivity. apply get_fill_blanks.
  - assert (Hf : In "port" (List.map fst (fill_blanks r)))
      by now rewrite fill_blanks_keys.
    unfold default_vendor.
    destruct (get "vendor" (fill_blanks r)) as [[|]| |]; try exact Hf.
    now apply set_keeps_key.
Qed.

(** X12. The status table decides which ports a snapshot has: when
    [collect_switch_data] returns, every port of the status rows is in the
    snapshot and no other port is, and the snapshot has at least as many
    rows as the status table. *)
Theorem snapshot_ports (hostname ip today : string) (arp_map : gmap string string)
    (srows : list StatusRow) (df_mac df_lldp df_last df : DataFrame) :
  merge_snapshot hostname ip today arp_map (frame_of (List.map status_dict srows))
                 df_mac df_lldp df_last = Return df ->
  (forall c, In c (List.map (get "port") (records df)) <->
             In c (List.map (fun r => Text (normalize_port (st_port r))) srows)) /\
  (length srows <= length (records df))%nat.
Proof.
  unfold merge_snapshot. intros H.
  destruct srows as [|s0 srows]; [discriminate|].
  destruct (renormalize_status (s0 :: srows)) as [Hk Hp]; [discriminate|].
  set (f0 := renormalize (frame_of (List.map status_dict (s0 :: srows)))) in *.
  assert (Hlen : length (records f0) = length (s0 :: srows)).
  { rewrite <- (length_map (get "port")), Hp. apply length_map. }
  destruct (merge_left "port" f0 (renormalize df_mac)) as [df1|] eqn:H1; [|discriminate].
  cbn [bind] in H.
  destruct (merge_left "port" df1 (renormalize df_lldp)) as [df2|] eqn:H2; [|discriminate].
  cbn [bind] in H.
  destruct (merge_left "port" df2 (renormalize df_last)) as [df3|] eqn:H3; [|discriminate].
  cbn [bind] in H.
  destruct (forallb _ text_cols); [|discriminate]. injection H as <-.
  destruct (merge_left_keys _ _ _ _ H1 Hk) as (K1 & P1 & L1).
  destruct (merge_left_keys _ _ _ _ H2 K1) as (K2 & P2 & L2).
  destruct (merge_left_keys _ _ _ _ H3 K2) as (K3 & P3 & L3).
  cbn [records]. split.
  - intros c. rewrite <- Hp, <- P1, <- P2, <- P3, List.map_map.
    assert (He : forall x, In x (records df3) ->
                 get "port"
                   ([("switch_name", Text hostname); ("switch_ip", Text ip)] ++
                    resolve_ip arp_map (default_vendor (fill_blanks x)) ++
                    [("snapshot_date", Text today)])%list
                 = get "port" x).
    { intros x Hx. cbn [app get String.eqb Ascii.eqb].
      change (String.eqb "switch_name" "port") with false.
      change (String.eqb "switch_ip" "port") with false. cbv iota.
      rewrite List.Forall_forall in K3. specialize (K3 x Hx).
      rewrite get_app_l; [now apply get_finish|].
      unfold resolve_ip. rewrite List.map_app. apply in_or_app. left.
      assert (Hf : In "port" (List.map fst (fill_blanks x)))
        by now rewrite fill_blanks_keys.
      unfold default_vendor.
      destruct (get "vendor" (fill_blanks x)) as [[|]| |]; try exact Hf.
      now apply set_keeps_key. }
    erewrite List.map_ext_in; [reflexivity|].
    intros x Hx. cbv beta zeta. exact (He x Hx).
  - rewrite length_map. lia.
Qed.


Lemma renormalize_length (f : DataFrame) :
  length (records (renormalize f)) = length (records f).
Proof.
  unfold renormalize. destruct (frame_empty f); [reflexivity|].
  cbn [records]. apply length_map.
Qed.



Lemma merge_left_columns (key : string) (left right df : DataFrame) :
  merge_left key left right = Return df -> has_column key df = true.
Proof.
  unfold merge_left. destruct (has_column key left) eqn:Hl; [|discriminate].
  destruct (has_column key right); [|discriminate]. cbn [andb]. intros H.
  injection H as <-. unfold has_column in *. cbn [columns].
  rewrite existsb_app, Hl. reflexivity.
Qed.




(** X14. When each of the three joined frames has at most one row per
    port (after the ports are normalised again), the snapshot has exactly
    one row per row of the status table. *)
Theorem snapshot_rows_exact (hostname ip today : string) (arp_map : gmap string string)
    (df_if df_mac df_lldp df_last df : DataFrame) :
  merge_snapshot hostname ip today arp_map df_if df_mac df_lldp df_last = Return df ->
  NoDup (List.map (get "port") (records (renormalize df_mac))) ->
  NoDup (List.map (get "port") (records (renormalize df_lldp))) ->
  NoDup (List.map (get "port") (records (renormalize df_last))) ->
  length (records df) = length (records df_if).
Proof.
  unfold merge_snapshot. intros H Nm Nl Nt.
  destruct (merge_left "port" (renormalize df_if) (renormalize df_mac)) as [df1|] eqn:H1;
    [|discriminate].
  cbn [bind] in H.
  destruct (merge_left "port" df1 (renormalize df_lldp)) as [df2|] eqn:H2; [|discriminate].
  cbn [bind] in H.
  destruct (merge_left "port" df2 (renormalize df_last)) as [df3|] eqn:H3; [|discriminate].
  cbn [bind] in H.
  destruct (forallb _ text_cols); [|discriminate]. injection H as <-.
  cbn [records]. rewrite length_map.
  rewrite (merge_left_unique _ _ _ _ Nt H3), (merge_left_unique _ _ _ _ Nl H2),
    (merge_left_unique _ _ _ _ Nm H1).
  apply renormalize_length.
Qed.

(** ** The ARP table *)

Lemma arp_fold_lookup (ms : list Re.groups) (d : gmap string string) (k ip : string) :
  fold_left (fun d m => <[normalize_mac (Re.group 2 m) := Re.group 1 m]> d) ms d !! k
    = Some ip ->
  d !! k = Some ip \/
  exists m, In m ms /\ k = normalize_mac (Re.group 2 m) /\ ip = Re.group 1 m.
Proof.
  revert d. induction ms as [|m ms IH]; simpl; intros d H; [now left|].
  apply IH in H as [H | (m' & Hin & Hk & Hv)].
  - destruct (decide (normalize_mac (Re.group 2 m) = k)) as [<- | Hne].
    + rewrite lookup_insert_eq in H. injection H as <-. right. exists m. auto.
    + rewrite lookup_insert_ne in H by exact Hne. now left.
  - right. exists m'. auto.
Qed.

Lemma arp_fold_last (ms : list Re.groups) (d : gmap string string) (k ip : string) :
  d !! k = Some ip ->
  (forall m, In m ms -> normalize_mac (Re.group 2 m) <> k) ->
  fold_left (fun d m => <[normalize_mac (Re.group 2 m) := Re.group 1 m]> d) ms d !! k
    = Some ip.
Proof.
  revert d. induction ms as [|m ms IH]; simpl; intros d H Hne; [exact H|].
  apply IH; [|intros m' Hm'; apply Hne; now right].
  rewrite lookup_insert_ne; [exact H | apply Hne; now left].
Qed.

(** X15. Every key of the ARP map is a normalised hardware address
    (lower case, no dot) taken from a matched line together with the
    address of that line; when several lines name the same hardware
    address, the last one gives the address; a failed session gives the
    empty map. *)
Theorem get_arp_table_entries (text : string) :
  (forall k ip, get_arp_table (Some text) !! k = Some ip ->
     Str.lower k = k /\ Str.remove "." k = k /\
     exists m, In m (Re.finditer false ArpRe.patt text) /\
               k = normalize_mac (Re.group 2 m) /\ ip = Re.group 1 m) /\
  (forall pre m post,
     Re.finditer false ArpRe.patt text = (pre ++ m :: post)%list ->
     (forall m', In m' post -> normalize_mac (Re.group 2 m') <> normalize_mac (Re.group 2 m)) ->
     get_arp_table (Some text) !! normalize_mac (Re.group 2 m) = Some (Re.group 1 m)) /\
  get_arp_table None = ∅.
Proof.
  split_all; [| |reflexivity].
  - intros k ip H. unfold get_arp_table in H.
    apply arp_fold_lookup in H as [H | (m & Hin & -> & ->)];
      [rewrite lookup_empty in H; discriminate|].
    pose proof (plain_rejoin _ (plain_lower_remove (Re.group 2 m))) as [P1 P2].
    rewrite <- normalize_mac_rejoin in P1, P2. split_all; eauto.
  - intros pre m post Hms Hlast. unfold get_arp_table. rewrite Hms, fold_left_app.
    cbn [fold_left]. apply arp_fold_last; [apply lookup_insert_eq | exact Hlast].
Qed.

Lemma get_arp_table_entries_witness :
  get_arp_table (Some arp_moved_host) !! normalize_mac "aabb.ccdd.eeff" = Some "10.0.0.9".
Proof.
  refine (proj1 (proj2 (get_arp_table_entries arp_moved_host))
            [[(2, "aabb.ccdd.eeff"); (1, "10.0.0.5")]]
            [(2, "aabb.ccdd.eeff"); (1, "10.0.0.9")] [] _ _).
  - vm_compute. reflexivity.
  - intros m' [].
Defined.

(** ** The run over all devices *)

Lemma cell_same_eq (a b : cell) : cell_same a b = true <-> a = b.
Proof.
  destruct a, b; simpl; split; try discriminate; try reflexivity; intros H.
  - apply String.eqb_eq in H. now subst.
  - injection H as ->. apply String.eqb_refl.
  - apply Z.eqb_eq in H. now subst.
  - injection H as ->. apply Z.eqb_refl.
Qed.

Lemma key_same_eq (a b : cell * cell * cell) : key_same a b = true <-> a = b.
Proof.
  destruct a as [[a1 a2] a3], b as [[b1 b2] b3]. unfold key_same. cbn [fst snd].
  rewrite !andb_true_iff, !cell_same_eq. split; [intros [[-> ->] ->] | intros [= -> -> ->]]; auto.
Qed.

Lemma seen_key (k : cell * cell * cell) (seen : list (cell * cell * cell)) :
  existsb (key_same k) seen = true <-> In k seen.
Proof.
  rewrite existsb_exists. split.
  - intros (x & Hx & He). apply key_same_eq in He. now subst.
  - intros H. exists k. split; [exact H | now apply key_same_eq].
Qed.

Lemma drop_rows_unseen (seen : list (cell * cell * cell)) (rows : list record) (r : record) :
  In r (drop_duplicate_rows seen rows) -> ~ In (row_key r) seen.
Proof.
  revert seen. induction rows as [|x rows IH]; simpl; intros seen H; [contradiction|].
  destruct (existsb (key_same (row_key x)) seen) eqn:Hx; [now apply IH|].
  destruct H as [<- | H].
  - intros Hin. apply seen_key in Hin. congruence.
  - intros Hin. apply (IH _ H). now right.
Qed.

Lemma drop_rows_NoDup (seen : list (cell * cell * cell)) (rows : list record) :
  NoDup (List.map row_key (drop_duplicate_rows seen rows)).
Proof.
  revert seen. induction rows as [|x rows IH]; simpl; intros seen; [constructor|].
  destruct (existsb (key_same (row_key x)) seen); [apply IH|].
  simpl. apply NoDup_cons_2; [|apply IH].
  intros Hin. apply list_elem_of_In, in_map_iff in Hin as (r & Hk & Hr).
  apply drop_rows_unseen in Hr. apply Hr. rewrite Hk. now left.
Qed.

Lemma drop_rows_first (seen : list (cell * cell * cell)) (rows : list record) (r : record) :
  In r (drop_duplicate_rows seen rows) ->
  exists pre post, rows = (pre ++ r :: post)%list /\
                   forall r', In r' pre -> row_key r' <> row_key r.
Proof.
  revert seen. induction rows as [|x rows IH]; simpl; intros seen H; [contradiction|].
  destruct (existsb (key_same (row_key x)) seen) eqn:Hx.
  - pose proof (drop_rows_unseen _ _ _ H) as Hr.
    destruct (IH _ H) as (pre & post & -> & Hpre).
    exists (x :: pre), post. split; [reflexivity|].
    intros r' [<- | Hin]; [|now apply Hpre].
    intros He. apply Hr. rewrite <- He. now apply seen_key.
  - destruct H as [<- | H].
    + exists [], rows. split; [reflexivity | intros ? []].
    + pose proof (drop_rows_unseen _ _ _ H) as Hr.
      destruct (IH _ H) as (pre & post & -> & Hpre).
      exists (x :: pre), post. split; [reflexivity|].
      intros r' [<- | Hin]; [|now apply Hpre].
      intros He. apply Hr. rewrite <- He. now left.
Qed.

Lemma drop_rows_covers (seen : list (cell * cell * cell)) (rows : list record) (r : record) :
  In r rows -> ~ In (row_key r) seen ->
  exists r', In r' (drop_duplicate_rows seen rows) /\ row_key r' = row_key r.
Proof.
  revert seen. induction rows as [|x rows IH]; simpl; intros seen H Hs; [contradiction|].
  destruct (existsb (key_same (row_key x)) seen) eqn:Hx.
  - destruct H as [<- | H]; [exfalso; apply Hs; now apply seen_key|]. now apply IH.
  - destruct (key_same (row_key x) (row_key r)) eqn:He.
    + apply key_same_eq in He. exists x. split; [now left | exact He].
    + destruct H as [<- | H].
      { assert (key_same (row_key x) (row_key x) = true) by now apply key_same_eq.
        congruence. }
      destruct (IH (row_key x :: seen) H) as (r' & Hr' & Hk).
      * intros [Hin | Hin]; [|contradiction].
        rewrite Hin in He.
        assert (key_same (row_key r) (row_key r) = true) by now apply key_same_eq.
        congruence.
      * exists r'. split; [now right | exact Hk].
Qed.

(** X16. The table [main] stores has no two rows with the same switch
    name, port and date: of the rows of all frames, in order, the first of
    each such key is kept and the later ones are dropped; no key is
    lost. The run exits without storing only when no device gave a
    frame. *)
Theorem aggregate_keys (frames : list DataFrame) :
  (aggregate frames = None <-> frames = []) /\
  forall out, aggregate frames = Some out ->
    let rows := concat (List.map records frames) in
    NoDup (List.map row_key out) /\
    (forall r, In r out ->
       exists pre post, rows = (pre ++ r :: post)%list /\
                        forall r', In r' pre -> row_key r' <> row_key r) /\
    (forall r, In r rows -> exists r', In r' out /\ row_key r' = row_key r).
Proof.
  unfold aggregate. split.
  - destruct frames; split; congruence.
  - intros out H. set (rows := concat (List.map records frames)) in *.
    assert (Ho : out = drop_duplicate_rows [] rows) by (destruct frames; congruence).
    rewrite Ho. split_all.
    + apply drop_rows_NoDup.
    + apply drop_rows_first.
    + intros r Hr. apply drop_rows_covers; [exact Hr | intros []].
Qed.

Lemma collect_all_app (api : service) (now : Z) (today : string)
    (arp_map : gmap string string) (d1 d2 : list (string * option answers)) (w : world) :
  collect_all api now today arp_map (d1 ++ d2) w =
  ((fst (collect_all api now today arp_map d1 w) ++
    fst (collect_all api now today arp_map d2
           (snd (collect_all api now today arp_map d1 w))))%list,
   snd (collect_all api now today arp_map d2
          (snd (collect_all api now today arp_map d1 w)))).
Proof.
  revert w. induction d1 as [|[ip s] d1 IH]; intros w; cbn [app collect_all fst snd].
  - now destruct (collect_all api now today arp_map d2 w).
  - destruct (collect_device api now today arp_map ip s w) as [f w1].
    rewrite IH. destruct (collect_all api now today arp_map d1 w1) as [fs w2]. cbn [fst snd].
    destruct (collect_all api now today arp_map d2 w2) as [fs' w3]. cbn [fst snd].
    now destruct f.
Qed.

(** X17. A device whose session cannot be opened, or whose hostname
    answer has no word, gives no frame and changes nothing for the other
    devices: the frames and the vendor cache are those of the run without
    it. *)
Theorem failed_device_is_skipped (api : service) (now : Z) (today : string)
    (arp_map : gmap string string) (before after : list (string * option answers))
    (ip : string) (session : option answers) (w : world) :
  match session with
  | None => True
  | Some a => last_word (a_hostname a) = None
  end ->
  collect_all api now today arp_map (before ++ (ip, session) :: after) w
  = collect_all api now today arp_map (before ++ after) w.
Proof.
  intros Hfail.
  assert (Hd : forall w0, collect_device api now today arp_map ip session w0 = (None, w0)).
  { intros w0. unfold collect_device. destruct session as [a|]; [|reflexivity].
    now rewrite Hfail. }
  rewrite !collect_all_app. cbn [collect_all]. rewrite Hd.
  destruct (collect_all api now today arp_map after _) as [fs w2]. reflexivity.
Qed.

Lemma failed_device_is_skipped_witness :
  collect_all no_service some_now "2026-11-03" ∅
    [("10.0.0.2", None); ("10.0.0.3", Some (MkAnswers " " "" "" [] ""))] (start_of_run [])
  = collect_all no_service some_now "2026-11-03" ∅
      [("10.0.0.3", Some (MkAnswers " " "" "" [] ""))] (start_of_run []).
Proof.
  apply (failed_device_is_skipped no_service some_now "2026-11-03" ∅ []
           [("10.0.0.3", Some (MkAnswers " " "" "" [] ""))] "10.0.0.2" None).
  exact I.
Defined.

Lemma snapshot_ports_witness :
  (length rows_status_one <= length (records (returned (snapshot_with df_lldp_two))))%nat.
Proof.
  refine (proj2 (snapshot_ports "sw1" "10.0.0.2" "2026-11-03" ∅ rows_status_one
                   df_mac_one df_lldp_two df_last_one
                   (returned (snapshot_with df_lldp_two)) _)).
  vm_compute. reflexivity.
Defined.

Lemma snapshot_rows_exact_witness :
  length (records (returned (snapshot_with df_lldp_one))) = 1%nat.
Proof.
  refine (snapshot_rows_exact "sw1" "10.0.0.2" "2026-11-03" ∅
            (frame_of (List.map status_dict rows_status_one))
            df_mac_one df_lldp_one df_last_one
            (returned (snapshot_with df_lldp_one)) _ _ _ _).
  - vm_compute. reflexivity.
  - vm_compute. apply NoDup_singleton.
  - vm_compute. apply NoDup_singleton.
  - vm_compute. apply NoDup_singleton.
Defined.

Lemma aggregate_keys_witness :
  NoDup (List.map row_key
           (drop_duplicate_rows []
              (concat (List.map records [returned (snapshot_with df_lldp_two)])))) /\
  length (drop_duplicate_rows []
            (concat (List.map records [returned (snapshot_with df_lldp_two)]))) = 1%nat.
Proof.
  split.
  - refine (proj1 (proj2 (aggregate_keys [returned (snapshot_with df_lldp_two)]) _ _)).
    reflexivity.
  - vm_compute. reflexivity.
Defined.

(** ** The stamp of a traffic row, and the defaults of a snapshot row *)



Lemma get_map_any (c : string) (f : string * cell -> string * cell) (g : cell -> cell)
    (r : record) :
  (forall kv, fst (f kv) = fst kv) ->
  (forall kv, fst kv = c -> snd (f kv) = g (snd kv)) ->
  In c (List.map fst r) ->
  get c (List.map f r) = g (get c r).
Proof.
  intros Hf Hs. induction r as [|[k v] r IH]; [intros []|].
  cbn [List.map get fst]. pose proof (Hf (k, v)) as Hk. pose proof (Hs (k, v)) as Hv.
  destruct (f (k, v)) as [k' v']. cbn [fst snd] in *. subst k'.
  destruct (String.eqb k c) eqn:He.
  - intros _. apply String.eqb_eq in He. now apply Hv.
  - intros [-> | Hin]; [rewrite String.eqb_refl in He; discriminate | now apply IH].
Qed.

Lemma get_fill_text (c : string) (r : record) :
  In c text_cols -> In c (List.map fst r) ->
  get c (fill_blanks r) = filled (get c r).
Proof.
  intros Hc Hin. unfold fill_blanks.
  apply (get_map_any c _ filled); [| |exact Hin].
  - intros [k v]. cbn [fst snd]. destruct v; try reflexivity.
    now destruct (existsb _ text_cols).
  - intros [k v] Hk. cbn [fst snd] in *. subst k. destruct v; try reflexivity.
    assert (He : existsb (String.eqb c) text_cols = true).
    { apply existsb_exists. exists c. split; [exact Hc | apply String.eqb_refl]. }
    now rewrite He.
Qed.

(** X19. After the blanks are filled, a snapshot row that found no MAC
    entry has the empty text as address and [Unknown] as vendor, and a row
    with an address keeps it; the address column of every row is looked up
    in the ARP map as it then stands (the empty text for a row without
    entry), with [Unknown] when the map has no such key. *)
Theorem snapshot_defaults (arp_map : gmap string string) (r : record) :
  In "mac_address" (List.map fst r) ->
  In "vendor" (List.map fst r) ->
  ~ In "ip_address" (List.map fst r) ->
  let r' := resolve_ip arp_map (default_vendor (fill_blanks r)) in
  let mac := filled (get "mac_address" r) in
  get "mac_address" r' = mac /\
  get "vendor" r' = match get "vendor" r with
                    | NaN | Text "" => Text "Unknown"
                    | v => v
                    end /\
  get "ip_address" r' = Text (match mac with
                              | Text m => default "Unknown" (arp_map !! m)
                              | _ => "Unknown"
                              end).
Proof.
  intros Hm Hv Hi r' mac.
  assert (Tm : In "mac_address" text_cols) by (simpl; tauto).
  assert (Tv : In "vendor" text_cols) by (simpl; tauto).
  pose proof (get_fill_text _ r Tm Hm) as Fm. pose proof (get_fill_text _ r Tv Hv) as Fv.
  assert (Kf : forall c, In c (List.map fst r) -> In c (List.map fst (fill_blanks r)))
    by (intros c Hc; now rewrite fill_blanks_keys).
  assert (Kd : forall c, In c (List.map fst r) ->
                         In c (List.map fst (default_vendor (fill_blanks r)))).
  { intros c Hc. unfold default_vendor.
    destruct (get "vendor" (fill_blanks r)) as [[|]| |]; auto.
    now apply set_keeps_key, Kf. }
  assert (Dm : get "mac_address" (default_vendor (fill_blanks r)) = mac).
  { unfold default_vendor. destruct (get "vendor" (fill_blanks r)) as [[|]| |]; try exact Fm.
    rewrite get_set_other by reflexivity. exact Fm. }
  unfold r', resolve_ip. split_all.
  - rewrite get_app_l by now apply Kd. exact Dm.
  - rewrite get_app_l by now apply Kd. unfold default_vendor.
    destruct (get "vendor" r) as [[|a s]| |] eqn:Gv; rewrite Fv; cbn [filled];
      rewrite ?get_set_same, ?Fv; reflexivity.
  - rewrite Dm.
    assert (Hno : ~ In "ip_address" (List.map fst (default_vendor (fill_blanks r)))).
    { unfold default_vendor. intros Hin. apply Hi.
      destruct (get "vendor" (fill_blanks r)) as [[|]| |];
        try (now rewrite fill_blanks_keys in Hin).
      clear -Hin. rewrite <- fill_blanks_keys.
      induction (fill_blanks r) as [|[k x] l IH]; simpl in *.
      - destruct Hin as [H | []]. discriminate.
      - destruct (String.eqb k "vendor"); simpl in *; tauto. }
    generalize (default_vendor (fill_blanks r)) Hno. clear.
    induction r0 as [|[k x] l IH]; simpl; intros Hno.
    + reflexivity.
    + destruct (String.eqb k "ip_address") eqn:He.
      * apply String.eqb_eq in He. subst. exfalso. apply Hno. now left.
      * apply IH. tauto.
Qed.

Lemma snapshot_defaults_witness :
  get "ip_address"
    (resolve_ip {["" := "10.9.9.9"]}
       (default_vendor (fill_blanks [("port", Text "Gi1/0/2"); ("mac_address", NaN);
                                     ("vendor", NaN)])))
  = Text "10.9.9.9".
Proof.
  refine (proj2 (proj2 (snapshot_defaults {["" := "10.9.9.9"]}
            [("port", Text "Gi1/0/2"); ("mac_address", NaN); ("vendor", NaN)] _ _ _))).
  - simpl. tauto.
  - simpl. tauto.
  - simpl. intros [H | [H | [H | []]]]; discriminate.
Defined.
